(** * LeatherSense: durable local queue and MySQL forwarder

    Shallow embedding of [common.py] (table [queue_readings]),
    [collector.py] ([insert_queue]) and [sync.py] (the SQLite operations,
    [push_with_split] and the forwarder loop [main]).

    Modelling choices:
    - the table is a list of rows in rowid order ([id INTEGER PRIMARY KEY
      AUTOINCREMENT]): [insert_queue] appends at the end;
    - the INTEGER flags [synced] and [dead] are [bool]: the code only ever
      writes 0 or 1 into them;
    - REAL columns are [option Q]; text timestamps written by the forwarder
      ([last_attempt_utc]) are kept as the UTC instant (seconds) they render;
    - wall-clock time ([time.time()], [datetime.now(timezone.utc)]) is an
      integer number of seconds supplied to each step. *)

From Stdlib Require Import ZArith QArith Ascii String List Bool Lia Arith.
From Stdlib Require Import Sorting.Sorted.
Import ListNotations.
Open Scope Z_scope.

(** ** Rows of [queue_readings] (common.py, [init_sqlite_queue]) *)

Record row := mkRow {
  reading_uuid : string;               (* TEXT NOT NULL UNIQUE *)
  device_key : string;
  sensor_type : string;
  pin : string;
  ts_epoch_utc : Z;
  ts_utc : string;
  temperature_c : option Q;
  humidity_pct : option Q;
  ok : Z;
  error_msg : option string;
  synced : bool;                       (* 0=pendente, 1=enviado *)
  dead : bool;                         (* 1=falha critica *)
  attempts : Z;
  last_attempt_utc : option Z
}.

Definition queue := list row.

(** Python's [None] return value, an integer result, or the exception the
    call raised. *)
Inductive py_exception := OverflowError.

Inductive py_value := PyNone | PyInt (n : Z) | PyRaised (e : py_exception).

(** Log lines the SQLite maintenance operations emit. *)
Inductive log_entry :=
| LogDeadLetter (rowcount max_attempts : Z)
| LogRetention (rowcount cutoff_epoch : Z).

(** Outcome of a call: the table afterwards, what was logged, what the
    Python function returned. *)
Record op_out := mkOut {
  out_queue : queue;
  out_log : list log_entry;
  out_return : py_value
}.

(** ** collector.py: [insert_queue]

    [store] is the store's answer to the INSERT: [None] when it can write,
    [Some msg] when the statement raises [sqlite3.OperationalError] with
    [str(e) = msg] (database locked past the 30 s busy timeout of
    [sqlite_connect], disk full); the table is then left as it was.  A
    [reading_uuid] already in the table raises [sqlite3.IntegrityError]
    (UNIQUE), again leaving the table as it was.  After the commit, the
    [logger.info] of a row with a true [ok] formats [float(temperature_c)]
    and [float(humidity_pct)]: a [None] there raises [TypeError], with the
    row already committed.  The result is the table afterwards and the
    exception raised, if any.  The commit itself is taken to succeed (in
    WAL mode the write lock is taken by the INSERT). *)
Inductive insert_error :=
| IntegrityError
| OperationalError (msg : string)
| TypeError.

Definition insert_queue (store : option string) (dev_key sens_type sens_pin : string)
    (uuid : string) (epoch : Z) (ts : string) (t h : option Q) (okv : Z)
    (err : option string) (q : queue) : queue * option insert_error :=
  match store with
  | Some msg => (q, Some (OperationalError msg))
  | None =>
    if existsb (String.eqb uuid) (map reading_uuid q) then (q, Some IntegrityError)
    else
      let q' := q ++ [mkRow uuid dev_key sens_type sens_pin epoch ts t h okv err
                        false false 0 None] in
      if okv =? 0 then (q', None)
      else
        match t, h with
        | Some _, Some _ => (q', None)
        | _, _ => (q', Some TypeError)
        end
  end.

(** ** sync.py: [fetch_unsynced]

    [WHERE synced=0 AND dead=0 ORDER BY ts_epoch_utc ASC LIMIT ?].  Rows of
    equal epoch come in rowid order (the scan of index
    [idx_queue_sync(synced, dead, ts_epoch_utc)]), i.e. the sort is stable.
    A negative LIMIT is no bound in SQLite. *)
Definition is_pending (r : row) : bool := negb (synced r) && negb (dead r).

Fixpoint insert_by_epoch (r : row) (l : list row) : list row :=
  match l with
  | [] => [r]
  | x :: t => if ts_epoch_utc r <=? ts_epoch_utc x then r :: x :: t
              else x :: insert_by_epoch r t
  end.

Definition order_by_epoch (l : list row) : list row :=
  fold_right insert_by_epoch [] l.

Definition sql_limit {A} (limit : Z) (l : list A) : list A :=
  if limit <? 0 then l else firstn (Z.to_nat limit) l.

Definition fetch_unsynced (q : queue) (limit : Z) : list row :=
  sql_limit limit (order_by_epoch (filter is_pending q)).

(** ** sync.py: [mark_synced] and [mark_attempt_failed]

    [executemany] runs the UPDATE once per element of [uuids], in order. *)
Definition set_synced (now : Z) (r : row) : row :=
  {| reading_uuid := reading_uuid r; device_key := device_key r;
     sensor_type := sensor_type r; pin := pin r;
     ts_epoch_utc := ts_epoch_utc r; ts_utc := ts_utc r;
     temperature_c := temperature_c r; humidity_pct := humidity_pct r;
     ok := ok r; error_msg := error_msg r;
     synced := true; dead := dead r;
     attempts := attempts r + 1; last_attempt_utc := Some now |}.

Definition set_attempt_failed (now : Z) (r : row) : row :=
  {| reading_uuid := reading_uuid r; device_key := device_key r;
     sensor_type := sensor_type r; pin := pin r;
     ts_epoch_utc := ts_epoch_utc r; ts_utc := ts_utc r;
     temperature_c := temperature_c r; humidity_pct := humidity_pct r;
     ok := ok r; error_msg := error_msg r;
     synced := synced r; dead := dead r;
     attempts := attempts r + 1; last_attempt_utc := Some now |}.

Definition set_dead (r : row) : row :=
  {| reading_uuid := reading_uuid r; device_key := device_key r;
     sensor_type := sensor_type r; pin := pin r;
     ts_epoch_utc := ts_epoch_utc r; ts_utc := ts_utc r;
     temperature_c := temperature_c r; humidity_pct := humidity_pct r;
     ok := ok r; error_msg := error_msg r;
     synced := synced r; dead := true;
     attempts := attempts r; last_attempt_utc := last_attempt_utc r |}.

(** [UPDATE queue_readings SET ... WHERE reading_uuid=?] for one uuid. *)
Definition update_where_uuid (upd : row -> row) (u : string) (q : queue) : queue :=
  map (fun r => if String.eqb (reading_uuid r) u then upd r else r) q.

Definition executemany_update (upd : row -> row) (uuids : list string)
    (q : queue) : queue :=
  fold_left (fun q u => update_where_uuid upd u q) uuids q.

Definition mark_synced (now : Z) (uuids : list string) (q : queue) : queue :=
  match uuids with
  | [] => q
  | _ => executemany_update (set_synced now) uuids q
  end.

Definition mark_attempt_failed (now : Z) (uuids : list string) (q : queue) : queue :=
  match uuids with
  | [] => q
  | _ => executemany_update (set_attempt_failed now) uuids q
  end.

(** ** sync.py: [mark_dead_if_exceeded]

    [UPDATE ... SET dead=1 WHERE synced=0 AND dead=0 AND attempts >= ?];
    the rowcount is logged when non-zero; the function returns [None]. *)
Definition dead_candidate (max_attempts : Z) (r : row) : bool :=
  is_pending r && (max_attempts <=? attempts r).

Definition mark_dead_if_exceeded (max_attempts : Z) (q : queue) : op_out :=
  let rowcount := Z.of_nat (length (filter (dead_candidate max_attempts) q)) in
  {| out_queue := map (fun r => if dead_candidate max_attempts r then set_dead r
                                else r) q;
     out_log := if rowcount =? 0 then [] else [LogDeadLetter rowcount max_attempts];
     out_return := PyNone |}.

(** ** sync.py: [retention_cleanup]

    [cutoff_epoch = int((now - timedelta(days=RETENTION_DAYS)).timestamp())]
    and [DELETE ... WHERE ts_epoch_utc < ? AND (synced=1 OR dead=1)]; does
    nothing when [ENABLE_RETENTION] is off; returns [None].

    [timedelta(days=d)] raises [OverflowError] when [|d| > 999999999], and
    the subtraction raises [OverflowError] when the result leaves the range
    of [datetime] (years 1 to 9999, i.e. epoch seconds [-62135596800] to
    [253402300799]); [retention_cutoff] is then [None], and
    [retention_cleanup] raises before the DELETE, leaving the table as it
    was. *)
Definition datetime_min_epoch : Z := -62135596800.
Definition datetime_max_epoch : Z := 253402300799.
Definition timedelta_max_days : Z := 999999999.

Definition retention_cutoff (now retention_days : Z) : option Z :=
  if timedelta_max_days <? Z.abs retention_days then None
  else
    let c := now - retention_days * 86400 in
    if (datetime_min_epoch <=? c) && (c <=? datetime_max_epoch) then Some c
    else None.

Definition retention_victim (cutoff : Z) (r : row) : bool :=
  (ts_epoch_utc r <? cutoff) && (synced r || dead r).

Definition retention_cleanup (enable_retention : bool) (retention_days now : Z)
    (q : queue) : op_out :=
  if negb enable_retention then mkOut q [] PyNone
  else
    match retention_cutoff now retention_days with
    | None => mkOut q [] (PyRaised OverflowError)
    | Some cutoff =>
      let rowcount := Z.of_nat (length (filter (retention_victim cutoff) q)) in
      {| out_queue := filter (fun r => negb (retention_victim cutoff r)) q;
         out_log := if rowcount =? 0 then [] else [LogRetention rowcount cutoff];
         out_return := PyNone |}
    end.

(** ** sync.py: [push_with_split]

    The remote bulk write [push_batch_mysql] is a parameter: [None] when
    [cur.executemany] succeeds, [Some e] when it raises [MySQLError e].
    The result records every bulk write offered (the batch and its outcome,
    in call order) and whether [push_with_split] returned ([None]) or
    raised ([Some e]).  The recursion is written with a fuel argument;
    [push_with_split] gives it the batch length, which always suffices
    (see [push_with_split_eq]). *)
Section PushWithSplit.

Variables (A E : Type).
Variable push_batch_mysql : list A -> option E.

Definition bulk_call := (list A * option E)%type.

Fixpoint push_split_fuel (fuel : nat) (batch : list A)
    : list bulk_call * option E :=
  match batch with
  | [] => ([], None)
  | _ :: _ =>
    match push_batch_mysql batch with
    | None => ([(batch, None)], None)
    | Some e =>
      if Nat.eqb (length batch) 1 then ([(batch, Some e)], Some e)
      else
        match fuel with
        | O => ([(batch, Some e)], Some e)
        | S fuel' =>
          let mid := Nat.div (length batch) 2 in
          let (c1, r1) := push_split_fuel fuel' (firstn mid batch) in
          match r1 with
          | Some e1 => ((batch, Some e) :: c1, Some e1)
          | None =>
            let (c2, r2) := push_split_fuel fuel' (skipn mid batch) in
            ((batch, Some e) :: c1 ++ c2, r2)
          end
        end
    end
  end.

Definition push_with_split (batch : list A) : list bulk_call * option E :=
  push_split_fuel (length batch) batch.

(** The records written by the successful bulk writes of a trace. *)
Definition written (calls : list bulk_call) : list A :=
  concat (map fst (filter (fun c => match snd c with None => true | Some _ => false end)
                          calls)).

End PushWithSplit.

Arguments push_split_fuel {A E} push_batch_mysql fuel batch.
Arguments push_with_split {A E} push_batch_mysql batch.
Arguments written {A E} calls.

(** [push_with_split] as the specification describes it (not the code):
    a rejected batch of more than one record is split at the midpoint and
    EACH half is retried independently, whatever the first half's outcome;
    the first rejection met propagates to the caller after both halves have
    been offered.  Used only to exhibit where the code departs from it. *)
Section PushWithSplitAsSpecified.

Variables (A E : Type).
Variable push_batch_mysql : list A -> option E.

Fixpoint push_split_spec_fuel (fuel : nat) (batch : list A)
    : list (bulk_call A E) * option E :=
  match batch with
  | [] => ([], None)
  | _ :: _ =>
    match push_batch_mysql batch with
    | None => ([(batch, None)], None)
    | Some e =>
      if Nat.eqb (length batch) 1 then ([(batch, Some e)], Some e)
      else
        match fuel with
        | O => ([(batch, Some e)], Some e)
        | S fuel' =>
          let mid := Nat.div (length batch) 2 in
          let (c1, r1) := push_split_spec_fuel fuel' (firstn mid batch) in
          let (c2, r2) := push_split_spec_fuel fuel' (skipn mid batch) in
          ((batch, Some e) :: c1 ++ c2,
           match r1 with Some e1 => Some e1 | None => r2 end)
        end
    end
  end.

Definition push_with_split_as_specified (batch : list A)
    : list (bulk_call A E) * option E :=
  push_split_spec_fuel (length batch) batch.

End PushWithSplitAsSpecified.

Arguments push_with_split_as_specified {A E} push_batch_mysql batch.

(** ** sync.py: the forwarder loop [main]

    Configuration read from the environment at module scope. [mysql_ready]
    is [MYSQL_ENABLED and cfg_ok]. *)
Record config := mkConfig {
  MYSQL_BATCH_SIZE : Z;
  MAX_SYNC_ATTEMPTS : Z;
  ENABLE_RETENTION : bool;
  RETENTION_DAYS : Z;
  mysql_ready : bool
}.

(** Local variables of [main]; [inflight] holds [uuids] between the
    [fetch_unsynced] of a cycle and the end of its [try] block. *)
Record fwd_state := mkFwd {
  mysql_fail_count : Z;
  next_try : Z;
  last_maintenance_date : option Z;
  inflight : option (list string)
}.

Definition fwd_init : fwd_state := mkFwd 0 0 None None.

Record world := mkWorld {
  queue_of : queue;
  fwd : fwd_state
}.

(** How the [try] block of a cycle ends: normally, with [MySQLError], with
    [sqlite3.OperationalError] (raised by [mark_synced], the only SQLite
    call in the block, before any row is updated), or with another
    exception. *)
Inductive outcome :=
| Delivered
| MySQLErrorRaised
| SQLiteOperationalError
| OtherException.

(** [datetime.now(timezone.utc).date()] as a day number. *)
Definition utc_date (now : Z) : Z := now / 86400.

Definition maintenance_due (f : fwd_state) (today : Z) : bool :=
  match last_maintenance_date f with
  | Some d => negb (d =? today)
  | None => true
  end.

(** [retention_cleanup] then [mark_dead_if_exceeded]: the table after the
    maintenance block.  When [retention_cleanup] raises, the exception
    leaves the block before [mark_dead_if_exceeded] and before
    [last_maintenance_date = today]; [maintenance_raises] tells when. *)
Definition maintenance_raises (cfg : config) (now : Z) (q : queue) : bool :=
  match out_return (retention_cleanup (ENABLE_RETENTION cfg) (RETENTION_DAYS cfg) now q) with
  | PyRaised _ => true
  | _ => false
  end.

Definition run_maintenance (cfg : config) (now : Z) (q : queue) : queue :=
  let o := retention_cleanup (ENABLE_RETENTION cfg) (RETENTION_DAYS cfg) now q in
  match out_return o with
  | PyRaised _ => out_queue o
  | _ => out_queue (mark_dead_if_exceeded (MAX_SYNC_ATTEMPTS cfg) (out_queue o))
  end.

Definition remote_backoff (fail_count : Z) : Z :=
  Z.min 300 (2 ^ Z.min fail_count 8).

Definition sqlite_backoff (fail_count : Z) : Z :=
  Z.min 30 (2 ^ Z.min fail_count 5).

(** Top of the [while RUNNING] body up to the [fetch_unsynced] call.  The
    maintenance block is outside any [try]: when it raises, the exception
    leaves [main]; [forwarder_begin] then gives the table as the block left
    it and the variables as they were, and [step] takes no [StepBegin]
    there (the loop has stopped; only a restart continues).  Its only
    exception modelled is the [OverflowError] of the retention cutoff; the
    SQLite statements of the block are taken to succeed. *)
Definition forwarder_begin_raises (cfg : config) (now : Z) (w : world) : bool :=
  maintenance_due (fwd w) (utc_date now) && maintenance_raises cfg now (queue_of w).

Definition forwarder_begin (cfg : config) (now : Z) (w : world) : world :=
  let today := utc_date now in
  let f := fwd w in
  if forwarder_begin_raises cfg now w
  then mkWorld (run_maintenance cfg now (queue_of w)) f
  else
  let w1 :=
    if maintenance_due f today
    then mkWorld (run_maintenance cfg now (queue_of w))
                 (mkFwd (mysql_fail_count f) (next_try f) (Some today) (inflight f))
    else w in
  let f1 := fwd w1 in
  if negb (mysql_ready cfg) then w1
  else if now <? next_try f1 then w1
  else
    match fetch_unsynced (queue_of w1) (MYSQL_BATCH_SIZE cfg) with
    | [] => w1
    | rows =>
      mkWorld (queue_of w1)
              (mkFwd (mysql_fail_count f1) (next_try f1)
                     (last_maintenance_date f1) (Some (map reading_uuid rows)))
    end.

(** The end of the [try] block and its [except] handlers. *)
Definition forwarder_finish (now : Z) (o : outcome) (w : world) : world :=
  let f := fwd w in
  match inflight f with
  | None => w
  | Some uuids =>
    let c := mysql_fail_count f + 1 in
    let lm := last_maintenance_date f in
    match o with
    | Delivered =>
      mkWorld (mark_synced now uuids (queue_of w)) (mkFwd 0 now lm None)
    | MySQLErrorRaised | OtherException =>
      mkWorld (mark_attempt_failed now uuids (queue_of w))
              (mkFwd c (now + remote_backoff c) lm None)
    | SQLiteOperationalError =>
      mkWorld (queue_of w) (mkFwd c (now + sqlite_backoff c) lm None)
    end
  end.

(** Producer and forwarder share the table; a producer insert may come
    between any two forwarder steps; the forwarder may restart with fresh
    local variables. *)
Inductive step (cfg : config) : world -> world -> Prop :=
| StepProduce w store dk st sp u ep ts t h okv err q' e :
    insert_queue store dk st sp u ep ts t h okv err (queue_of w) = (q', e) ->
    step cfg w (mkWorld q' (fwd w))
| StepBegin w now :
    inflight (fwd w) = None ->
    forwarder_begin_raises cfg now w = false ->
    step cfg w (forwarder_begin cfg now w)
| StepFinish w now o uuids :
    inflight (fwd w) = Some uuids ->
    step cfg w (forwarder_finish now o w)
| StepRestart w :
    step cfg w (mkWorld (queue_of w) fwd_init).

Inductive reachable (cfg : config) : world -> Prop :=
| ReachInit : reachable cfg (mkWorld [] fwd_init)
| ReachStep w w' : reachable cfg w -> step cfg w w' -> reachable cfg w'.

(** Delivery state encoded by the two flags; [None] for [synced=1, dead=1]. *)
Inductive delivery_state := Pending | Synced | Dead.

Definition state_of (r : row) : option delivery_state :=
  match synced r, dead r with
  | false, false => Some Pending
  | true, false => Some Synced
  | false, true => Some Dead
  | true, true => None
  end.

Definition allowed_transition (s s' : option delivery_state) : Prop :=
  s' = s \/ (s = Some Pending /\ (s' = Some Synced \/ s' = Some Dead)).

(** ** Concrete inputs used by the examples *)

Definition reading (u : string) (epoch : Z) : row :=
  mkRow u "raspi-unknown" "DHT11" "4" epoch "" None None 0
        (Some "Leitura nula do DHT"%string) false false 0 None.

Definition with_flags (r : row) (s d : bool) (n : Z) : row :=
  mkRow (reading_uuid r) (device_key r) (sensor_type r) (pin r) (ts_epoch_utc r)
        (ts_utc r) (temperature_c r) (humidity_pct r) (ok r) (error_msg r)
        s d n (last_attempt_utc r).

(** The producer appends three readings with epochs 100, 200, 300. *)
Definition scenario_queue : option queue :=
  match insert_queue None "raspi-unknown" "DHT11" "4" "r100" 100 ""
          (Some (Qmake 25 1)) (Some (Qmake 60 1)) 1 None [] with
  | (_, Some _) => None
  | (q1, None) =>
    match insert_queue None "raspi-unknown" "DHT11" "4" "r200" 200 ""
          (Some (Qmake 25 1)) (Some (Qmake 60 1)) 1 None q1 with
    | (_, Some _) => None
    | (q2, None) =>
      match insert_queue None "raspi-unknown" "DHT11" "4" "r300" 300 ""
          (Some (Qmake 25 1)) (Some (Qmake 60 1)) 1 None q2 with
      | (_, Some _) => None
      | (q3, None) => Some q3
      end
    end
  end.

Definition epoch_le (a b : row) : Prop := ts_epoch_utc a <= ts_epoch_utc b.

(** What the UPDATEs of [executemany_update] do to one row, in order. *)
Definition row_updates (upd : row -> row) (uuids : list string) (r : row) : row :=
  fold_left (fun r u => if String.eqb (reading_uuid r) u then upd r else r) uuids r.

(** A row with new [synced], [attempts] and [last_attempt_utc]. *)
Definition attempt_row (r : row) (s : bool) (n now : Z) : row :=
  mkRow (reading_uuid r) (device_key r) (sensor_type r) (pin r) (ts_epoch_utc r)
        (ts_utc r) (temperature_c r) (humidity_pct r) (ok r) (error_msg r)
        s (dead r) n (Some now).

(** A remote store that rejects every bulk write containing the record [0]. *)
Definition reject_zero (batch : list nat) : option string :=
  if existsb (Nat.eqb 0) batch then Some "Data truncated for column"%string else None.

(** Invariant of the reachable worlds: [reading_uuid] is unique (the
    UNIQUE constraint), the flags never both hold, and the rows named by the
    batch in flight are still pending. *)
Definition queue_inv (w : world) : Prop :=
  NoDup (map reading_uuid (queue_of w)) /\
  (forall r, In r (queue_of w) -> state_of r <> None) /\
  (forall uuids, inflight (fwd w) = Some uuids ->
     forall r, In r (queue_of w) -> In (reading_uuid r) uuids -> is_pending r = true).

(** How a row with a given uuid may change in one step. *)
Definition evolves (r r' : row) : Prop :=
  allowed_transition (state_of r) (state_of r') /\ attempts r <= attempts r'.

(** Runs of steps during which the row with uuid [u] stays in the table
    (it is the same record throughout). *)
Inductive run_keeping (cfg : config) (u : string) : world -> world -> Prop :=
| KeepDone w : run_keeping cfg u w w
| KeepStep w1 w2 w3 :
    step cfg w1 w2 -> In u (map reading_uuid (queue_of w2)) ->
    run_keeping cfg u w2 w3 -> run_keeping cfg u w1 w3.

(** What [mark_dead_if_exceeded] does to one row. *)
Definition sweep_row (max_attempts : Z) (r : row) : row :=
  if dead_candidate max_attempts r then set_dead r else r.

(** A concrete run: default configuration, one reading appended, one cycle
    fetching it, then delivered. *)
Definition cfg0 : config := mkConfig 200 50 true 90 true.

Definition w_produced : world := mkWorld [reading "a" 100] fwd_init.

Definition w_fetched : world := forwarder_begin cfg0 1000 w_produced.

Definition w_synced : world := forwarder_finish 1001 Delivered w_fetched.

(** One loop iteration whose [try] block ends in [MySQLError]. *)
Definition failing_cycle (cfg : config) (now : Z) (w : world) : world :=
  forwarder_finish now MySQLErrorRaised (forwarder_begin cfg now w).

(** Three consecutive remote failures from counter 0: the delays
    [next_try - now] and the [attempts] of the pending row. *)
Definition backoff_scenario : list Z * list Z :=
  let w1 := failing_cycle cfg0 1000 w_produced in
  let w2 := failing_cycle cfg0 1002 w1 in
  let w3 := failing_cycle cfg0 1006 w2 in
  ([next_try (fwd w1) - 1000; next_try (fwd w2) - 1002; next_try (fwd w3) - 1006],
   map attempts (queue_of w3)).

(** With [MAX_SYNC_ATTEMPTS = 1]: one remote failure, then the next day's
    sweep promotes the row to dead. *)
Definition cfg_max1 : config := mkConfig 200 1 true 90 true.

Definition w_dead : world :=
  forwarder_begin cfg_max1 172800 (failing_cycle cfg_max1 1000 w_produced).

Definition dead_row_a : row :=
  mkRow "a" "raspi-unknown" "DHT11" "4" 100 "" None None 0
        (Some "Leitura nula do DHT"%string) false true 1 (Some 1000).


(** ** collector.py: one iteration of the loop of [main]

    What the two reads [sensor.temperature], [sensor.humidity] give: two
    values (each possibly [None]), or the exception one of them raised. *)
Inductive dht_read :=
| DhtValues (temp umid : option Q)
| DhtRuntimeError (msg : string)
| DhtException (msg : string).

Record collector_state := mkCollector {
  c_queue : queue;
  consecutive_errors : Z
}.

(** [str(e)] of the [sqlite3.IntegrityError] raised by [insert_queue] for a
    [reading_uuid] already in the table. *)
Definition integrity_error_msg : string :=
  "UNIQUE constraint failed: queue_readings.reading_uuid".

(** [str(e)] of the exceptions [insert_queue] raises. *)
Definition insert_error_str (e : insert_error) : string :=
  match e with
  | IntegrityError => integrity_error_msg
  | OperationalError msg => msg
  | TypeError => "float() argument must be a string or a real number, not 'NoneType'"
  end.

(** One pass of [while RUNNING:] with the uuid [rid] and the timestamp
    [(ts_epoch_utc, ts_utc)] drawn at its top.  [store1] and [store2] are
    the store's answers (see [insert_queue]) to the first and the second
    [insert_queue] call of the pass: the one in the [try] block (or in the
    handler when a read raised) and the one in the [except Exception]
    handler that catches an exception of the first.  The result is
    [Some (state, reset)], where [reset] tells whether the sensor object was
    re-created, or [None] when an exception leaves [main] (an
    [insert_queue] that raises inside an [except] handler). *)
Definition collector_iteration (DEVICE_KEY SENSOR_TYPE SENSOR_PIN : string)
    (MAX_CONSECUTIVE_READ_ERRORS : Z) (store1 store2 : option string)
    (rid : string) (epoch : Z) (ts : string)
    (rd : dht_read) (s : collector_state) : option (collector_state * bool) :=
  let ins store := insert_queue store DEVICE_KEY SENSOR_TYPE SENSOR_PIN rid epoch ts in
  (* the except handlers: [consecutive_errors += 1], then [insert_queue] *)
  let handler (store : option string) (q : queue) (c : Z) (msg : string) :=
    match ins store None None 0 (Some msg) q with
    | (q', None) => Some (q', c + 1)
    | (_, Some _) => None
    end in
  let q := c_queue s in
  let after_try :=
    match rd with
    | DhtValues (Some t) (Some h) =>
      match ins store1 (Some t) (Some h) 1 None q with
      | (q', None) => Some (q', 0)
      | (q', Some e) => handler store2 q' 0 ("Erro inesperado: " ++ insert_error_str e)%string
      end
    | DhtValues _ _ =>
      match ins store1 None None 0 (Some "Leitura nula do DHT"%string) q with
      | (q', None) => Some (q', consecutive_errors s + 1)
      | (q', Some e) => handler store2 q' (consecutive_errors s + 1)
                                ("Erro inesperado: " ++ insert_error_str e)%string
      end
    | DhtRuntimeError msg => handler store1 q (consecutive_errors s) msg
    | DhtException msg => handler store1 q (consecutive_errors s) ("Erro inesperado: " ++ msg)%string
    end in
  match after_try with
  | None => None
  | Some (q', c) =>
    if MAX_CONSECUTIVE_READ_ERRORS <=? c then Some (mkCollector q' 0, true)
    else Some (mkCollector q' c, false)
  end.

(** ** common.py: [pin_for_db]

    A Python [str] is a [list ascii]; [str.isspace], [str.upper] and
    [str.isdigit] are modelled for code points below 128 (ASCII), which is
    the input the theorems below are about. *)
Definition py_isspace (c : ascii) : bool :=
  let n := nat_of_ascii c in
  ((9 <=? n) && (n <=? 13))%nat || ((28 <=? n) && (n <=? 32))%nat.

Definition py_isdigit_char (c : ascii) : bool :=
  let n := nat_of_ascii c in ((48 <=? n) && (n <=? 57))%nat.

Definition py_upper_char (c : ascii) : ascii :=
  let n := nat_of_ascii c in
  if ((97 <=? n) && (n <=? 122))%nat then ascii_of_nat (n - 32) else c.

Fixpoint py_lstrip (s : list ascii) : list ascii :=
  match s with
  | [] => []
  | c :: s' => if py_isspace c then py_lstrip s' else s
  end.

(** [str.strip()]: both ends. *)
Definition py_strip (s : list ascii) : list ascii := rev (py_lstrip (rev (py_lstrip s))).

Definition py_upper (s : list ascii) : list ascii := map py_upper_char s.

(** [str.isdigit()] is [False] on the empty string. *)
Definition py_isdigit (s : list ascii) : bool :=
  match s with
  | [] => false
  | _ => forallb py_isdigit_char s
  end.

Fixpoint py_startswith (s prefix : list ascii) {struct prefix} : bool :=
  match prefix, s with
  | [], _ => true
  | p :: ps, c :: cs => Ascii.eqb p c && py_startswith cs ps
  | _ :: _, [] => false
  end.

Definition GPIO : list ascii := ["G"; "P"; "I"; "O"]%char.

Definition pin_for_db (dht_gpio : option (list ascii)) : list ascii :=
  let s := py_upper (py_strip (match dht_gpio with Some x => x | None => [] end)) in
  if py_startswith s GPIO then s
  else if py_startswith s ["D"%char] && py_isdigit (tl s) then GPIO ++ tl s
  else s.

Definition is_ascii (s : list ascii) : bool := forallb (fun c => (nat_of_ascii c <? 128)%nat) s.

(** No whitespace at the start of a string. *)
Definition no_lead_space (s : list ascii) : Prop :=
  match s with
  | [] => True
  | c :: _ => py_isspace c = false
  end.

(** ** sync.py: [mysql_config_ok]

    The module-level settings it reads are its parameters; [not s] on a
    Python [str] is [s == ""]. *)
Definition py_str_empty (s : string) : bool :=
  match s with EmptyString => true | String _ _ => false end.

Definition mysql_config_ok (MYSQL_ENABLED : bool)
    (MYSQL_HOST MYSQL_USER MYSQL_PASS MYSQL_DB : string) : bool * string :=
  let missing :=
    (if py_str_empty MYSQL_HOST then ["MYSQL_HOST"%string] else []) ++
    (if py_str_empty MYSQL_USER then ["MYSQL_USER"%string] else []) ++
    (if py_str_empty MYSQL_PASS then ["MYSQL_PASS"%string] else []) ++
    (if py_str_empty MYSQL_DB then ["MYSQL_DB"%string] else []) in
  let ok := Nat.eqb (length missing) 0 in
  let or_vazio (v : string) := if py_str_empty v then "<vazio>"%string else v in
  let report :=
    ("MYSQL_ENABLED=" ++ (if MYSQL_ENABLED then "1" else "0") ++
     " | HOST=" ++ or_vazio MYSQL_HOST ++
     " | DB=" ++ or_vazio MYSQL_DB ++
     " | USER=" ++ or_vazio MYSQL_USER ++
     " | PASS=" ++ (if py_str_empty MYSQL_PASS then "<vazio>" else "<set>") ++
     " | MISSING=" ++ (match missing with [] => "-" | _ => String.concat "," missing end))%string in
  (ok, report).

(** ** sync.py: the MySQL tables and [ensure_device], [ensure_sensor],
    [push_batch_mysql]

    The tables [devices], [sensors] and [readings] as the comment above
    [mysql_connect] lists them.  [ON DUPLICATE KEY UPDATE] in [ensure_device]
    is taken to hit [UNIQUE(device_key)]; whether [readings] has
    [UNIQUE(reading_uuid)] (only "recomendado" in [push_batch_mysql]) is a
    flag of the database; [readings.sensor_id] is a foreign key to
    [sensors.id].  The [_auto] fields are the AUTO_INCREMENT counters; InnoDB
    allocates a value for an [INSERT ... ON DUPLICATE KEY UPDATE] of one row
    even when it ends up updating. *)
Record device_row := mkDevice {
  dev_id : Z;
  dev_key : string;
  dev_location : option string;
  dev_ip : option string
}.

Record sensor_row := mkSensor {
  sen_id : Z;
  sen_device_id : Z;
  sen_sensor_type : string;
  sen_pin : string;
  sen_label : string
}.

(** A row of [readings], also the tuple
    [(reading_uuid, sensor_id, ts_utc, temperature_c, humidity_pct, ok, error_msg)]
    that [main] appends to [batch]. *)
Record reading_rec := mkReading {
  rd_uuid : string;
  rd_sensor_id : Z;
  rd_ts_utc : string;
  rd_temperature_c : option Q;
  rd_humidity_pct : option Q;
  rd_ok : Z;
  rd_error_msg : option string
}.

Record mysql_db := mkMysql {
  devices : list device_row;
  devices_auto : Z;
  sensors : list sensor_row;
  sensors_auto : Z;
  readings : list reading_rec;
  readings_uuid_unique : bool
}.

(** SQL [COALESCE(a, b)]. *)
Definition coalesce {T} (a b : option T) : option T :=
  match a with Some _ => a | None => b end.

Definition device_has_key (device_key : string) (d : device_row) : bool :=
  String.eqb (dev_key d) device_key.

(** [ON DUPLICATE KEY UPDATE location = COALESCE(VALUES(location), location),
    ip = COALESCE(VALUES(ip), ip)]. *)
Definition update_device (location ip : option string) (d : device_row) : device_row :=
  mkDevice (dev_id d) (dev_key d) (coalesce location (dev_location d)) (coalesce ip (dev_ip d)).

(** [None] is the [MySQLError] raised when the [SELECT] finds no row. *)
Definition ensure_device (device_key : string) (location ip : option string)
    (db : mysql_db) : option (Z * mysql_db) :=
  let devs := devices db in
  let devs' :=
    if existsb (device_has_key device_key) devs
    then map (fun d => if device_has_key device_key d then update_device location ip d else d) devs
    else devs ++ [mkDevice (devices_auto db) device_key location ip] in
  let db' := mkMysql devs' (devices_auto db + 1) (sensors db) (sensors_auto db)
                     (readings db) (readings_uuid_unique db) in
  match find (device_has_key device_key) devs' with
  | Some d => Some (dev_id d, db')
  | None => None
  end.

Definition sensor_matches (device_id : Z) (sensor_type pin : string) (s : sensor_row) : bool :=
  (sen_device_id s =? device_id) && String.eqb (sen_sensor_type s) sensor_type &&
  String.eqb (sen_pin s) pin.

(** The first id of [ORDER BY id DESC LIMIT 1]. *)
Fixpoint max_sen_id (l : list sensor_row) : option Z :=
  match l with
  | [] => None
  | s :: l' =>
    match max_sen_id l' with
    | None => Some (sen_id s)
    | Some m => Some (Z.max (sen_id s) m)
    end
  end.

Definition ensure_sensor (device_id : Z) (sensor_type pin label : string)
    (db : mysql_db) : Z * mysql_db :=
  match max_sen_id (filter (sensor_matches device_id sensor_type pin) (sensors db)) with
  | Some id => (id, db)
  | None =>
    let id := sensors_auto db in
    (id, mkMysql (devices db) (devices_auto db)
                 (sensors db ++ [mkSensor id device_id sensor_type pin label])
                 (id + 1) (readings db) (readings_uuid_unique db))
  end.

(** [sensor_cache: dict[tuple[str, str], int]] *)
Fixpoint cache_lookup (key : string * string) (cache : list ((string * string) * Z)) : option Z :=
  match cache with
  | [] => None
  | (k, v) :: cache' =>
    if String.eqb (fst k) (fst key) && String.eqb (snd k) (snd key) then Some v
    else cache_lookup key cache'
  end.

(** The [for] loop of [main] that resolves each fetched row's sensor and
    builds [batch]; started with [sensor_cache = {}]. *)
Fixpoint build_batch (device_id : Z) (sensor_cache : list ((string * string) * Z))
    (rows : list row) (db : mysql_db) : list reading_rec * mysql_db :=
  match rows with
  | [] => ([], db)
  | r :: rows' =>
    let key := (sensor_type r, pin r) in
    let '(sensor_id, cache', db1) :=
      match cache_lookup key sensor_cache with
      | Some sid => (sid, sensor_cache, db)
      | None =>
        let label := (sensor_type r ++ "@" ++ pin r)%string in
        let (sid, db1) := ensure_sensor device_id (sensor_type r) (pin r) label db in
        (sid, (key, sid) :: sensor_cache, db1)
      end in
    let (batch, db2) := build_batch device_id cache' rows' db1 in
    (mkReading (reading_uuid r) sensor_id (ts_utc r) (temperature_c r) (humidity_pct r)
               (ok r) (error_msg r) :: batch, db2)
  end.

(** [ON DUPLICATE KEY UPDATE temperature_c, humidity_pct, ok, error_msg]. *)
Definition set_values (t r : reading_rec) : reading_rec :=
  mkReading (rd_uuid r) (rd_sensor_id r) (rd_ts_utc r) (rd_temperature_c t)
            (rd_humidity_pct t) (rd_ok t) (rd_error_msg t).

Definition same_uuid (u : string) (r : reading_rec) : bool := String.eqb (rd_uuid r) u.

Definition upsert_reading (uuid_unique : bool) (rs : list reading_rec) (t : reading_rec)
    : list reading_rec :=
  if uuid_unique && existsb (same_uuid (rd_uuid t)) rs
  then map (fun r => if same_uuid (rd_uuid t) r then set_values t r else r) rs
  else rs ++ [t].

Definition fk_violation_msg : string :=
  "Cannot add or update a child row: a foreign key constraint fails".

(** The error of a value that the column types of [readings] refuse in
    strict mode (the comment above [mysql_connect] names no column types). *)
Definition data_error_msg : string := "Data truncated for column".

(** Whether the server accepts the tuple [t] against the sensors [ss]: its
    [sensor_id] is an id of [sensors], and [fits t] says whether its values
    fit the columns of [readings] (a value they refuse is a malformed
    value). *)
Definition tuple_accepted (fits : reading_rec -> bool) (ss : list sensor_row)
    (t : reading_rec) : bool :=
  fits t && existsb (fun s => sen_id s =? rd_sensor_id t) ss.

(** The [MySQLError] of the first refused tuple. *)
Definition tuple_error (fits : reading_rec -> bool) (t : reading_rec) : string :=
  if fits t then fk_violation_msg else data_error_msg.

(** [cur.executemany] of the upsert: one multi-row [INSERT], all or
    nothing; [Some msg] is the [MySQLError] raised by the first tuple the
    server refuses, a malformed value ([fits]) or a missing sensor id. *)
Definition push_batch_mysql (fits : reading_rec -> bool) (batch : list reading_rec)
    (db : mysql_db) : option string * mysql_db :=
  match find (fun t => negb (tuple_accepted fits (sensors db) t)) batch with
  | None =>
    (None, mkMysql (devices db) (devices_auto db) (sensors db) (sensors_auto db)
                   (fold_left (upsert_reading (readings_uuid_unique db)) batch (readings db))
                   (readings_uuid_unique db))
  | Some t => (Some (tuple_error fits t), db)
  end.

(** The last tuple of a batch with a given [reading_uuid]: the one whose
    values an upsert leaves in the table. *)
Definition last_match (u : string) (b : list reading_rec) : option reading_rec :=
  fold_left (fun acc t => if same_uuid u t then Some t else acc) b None.

(** What the upserts of a batch do to a row already in the table. *)
Definition apply_updates (b : list reading_rec) (r : reading_rec) : reading_rec :=
  fold_left (fun r t => if same_uuid (rd_uuid t) r then set_values t r else r) b r.

(** How many [sensors] rows a (device_id, sensor_type, pin) key has. *)
Definition count_sensors (db : mysql_db) (device_id : Z) (sensor_type pin : string) : nat :=
  length (filter (sensor_matches device_id sensor_type pin) (sensors db)).

(** From [db] to [db']: no key gained a second sensor row. *)
Definition sensors_grow_once (db db' : mysql_db) : Prop :=
  forall d ty p,
    count_sensors db' d ty p = count_sensors db d ty p \/
    (count_sensors db d ty p = 0 /\ count_sensors db' d ty p = 1)%nat.

(** Every entry of [sensor_cache] names a sensor of the device with that
    (sensor_type, pin). *)
Definition cache_ok (device_id : Z) (cache : list ((string * string) * Z)) (db : mysql_db) : Prop :=
  forall k v, cache_lookup k cache = Some v ->
    exists s, In s (sensors db) /\ sen_id s = v /\ sensor_matches device_id (fst k) (snd k) s = true.

(** A fetched row and the tuple the loop builds for it. *)
Definition tuple_of (device_id : Z) (db : mysql_db) (r : row) (t : reading_rec) : Prop :=
  rd_uuid t = reading_uuid r /\ rd_ts_utc t = ts_utc r /\
  rd_temperature_c t = temperature_c r /\ rd_humidity_pct t = humidity_pct r /\
  rd_ok t = ok r /\ rd_error_msg t = error_msg r /\
  exists s, In s (sensors db) /\ sen_id s = rd_sensor_id t /\
            sensor_matches device_id (sensor_type r) (pin r) s = true.

(** The reading a queue row carries, without its delivery bookkeeping
    ([synced], [dead], [attempts], [last_attempt_utc]). *)
Definition reading_data (r : row)
    : string * string * string * string * Z * string * option Q * option Q * Z * option string :=
  (reading_uuid r, device_key r, sensor_type r, pin r, ts_epoch_utc r, ts_utc r,
   temperature_c r, humidity_pct r, ok r, error_msg r).

(** Every row of [q'] carries the reading of a row of [q]. *)
Definition data_from (q q' : queue) : Prop :=
  forall r', In r' q' -> exists r, In r q /\ reading_data r = reading_data r'.

(** Every row of [q] has its reading in [q']. *)
Definition keeps_all (q q' : queue) : Prop :=
  forall r, In r q -> exists r', In r' q' /\ reading_data r' = reading_data r.

(** * Proofs *)

Example scenario_queue_fetch :
  option_map (fun q => map ts_epoch_utc (fetch_unsynced q 2)) scenario_queue
  = Some [100; 200].
Proof. reflexivity. Qed.

(** ** Lemmas on [fetch_unsynced] *)

Lemma in_insert_by_epoch x r l : In x (insert_by_epoch r l) <-> x = r \/ In x l.
Proof.
  induction l as [|y t IH]; simpl.
  - firstorder congruence.
  - destruct (ts_epoch_utc r <=? ts_epoch_utc y); simpl; [firstorder congruence|].
    rewrite IH. firstorder congruence.
Qed.

Lemma in_order_by_epoch x l : In x (order_by_epoch l) <-> In x l.
Proof.
  unfold order_by_epoch. induction l as [|y t IH]; simpl; [tauto|].
  rewrite in_insert_by_epoch, IH. firstorder congruence.
Qed.

Lemma insert_by_epoch_sorted r l :
  Sorted epoch_le l -> Sorted epoch_le (insert_by_epoch r l).
Proof.
  induction l as [|y t IH]; simpl; intros Hs.
  - repeat constructor.
  - destruct (ts_epoch_utc r <=? ts_epoch_utc y) eqn:E.
    + constructor; [exact Hs|]. constructor. unfold epoch_le. lia.
    + apply Sorted_inv in Hs as [Ht Hh]. constructor; [now apply IH|].
      destruct t as [|z t']; simpl.
      * constructor. unfold epoch_le. lia.
      * inversion Hh; subst.
        destruct (ts_epoch_utc r <=? ts_epoch_utc z); constructor;
          unfold epoch_le in *; lia.
Qed.

Lemma order_by_epoch_sorted l : Sorted epoch_le (order_by_epoch l).
Proof.
  unfold order_by_epoch. induction l as [|y t IH]; simpl; [constructor|].
  now apply insert_by_epoch_sorted.
Qed.

Lemma firstn_sorted {A} (R : A -> A -> Prop) n l :
  Sorted R l -> Sorted R (firstn n l).
Proof.
  revert l; induction n as [|n IH]; intros l Hs; simpl; [constructor|].
  destruct l as [|a t]; [constructor|].
  apply Sorted_inv in Hs as [Ht Hh]. constructor; [now apply IH|].
  destruct t as [|b t'], n as [|n']; simpl; try constructor.
  now inversion Hh.
Qed.

Lemma filter_insert_by_epoch e r l :
  filter (fun x => ts_epoch_utc x =? e) (insert_by_epoch r l)
  = filter (fun x => ts_epoch_utc x =? e) (r :: l).
Proof.
  induction l as [|y t IH]; [reflexivity|]. cbn [insert_by_epoch].
  destruct (ts_epoch_utc r <=? ts_epoch_utc y) eqn:E; [reflexivity|].
  cbn [filter]. rewrite IH. cbn [filter].
  destruct (ts_epoch_utc r =? e) eqn:Er, (ts_epoch_utc y =? e) eqn:Ey;
    try reflexivity.
  apply Z.leb_gt in E. apply Z.eqb_eq in Er, Ey. lia.
Qed.

Lemma filter_order_by_epoch e l :
  filter (fun x => ts_epoch_utc x =? e) (order_by_epoch l)
  = filter (fun x => ts_epoch_utc x =? e) l.
Proof.
  unfold order_by_epoch. induction l as [|y t IH]; [reflexivity|].
  cbn [fold_right]. rewrite filter_insert_by_epoch. cbn [filter].
  fold (order_by_epoch t). unfold order_by_epoch. rewrite IH. reflexivity.
Qed.

Lemma in_sql_limit {A} (x : A) limit l : In x (sql_limit limit l) -> In x l.
Proof.
  unfold sql_limit. destruct (limit <? 0); [auto|].
  intros H. rewrite <- (firstn_skipn (Z.to_nat limit) l).
  apply in_or_app; now left.
Qed.

Lemma in_fetch_unsynced x q limit :
  In x (fetch_unsynced q limit) -> In x q /\ is_pending x = true.
Proof.
  unfold fetch_unsynced. intros H.
  apply in_sql_limit, in_order_by_epoch, filter_In in H. exact H.
Qed.

Lemma is_pending_flags r :
  is_pending r = true <-> synced r = false /\ dead r = false.
Proof. unfold is_pending. destruct (synced r), (dead r); simpl; intuition congruence. Qed.

(** ** Claim C2 *)

(** C2 (as stated, refuted): "[fetch_unsynced(conn, limit)] returns at most
    [limit] records" fails for a negative [limit]: SQLite reads a negative
    LIMIT as no bound, so with three pending rows and [limit = -1] all three
    come back. *)
Lemma fetch_unsynced_negative_limit_counterexample :
  ~ (forall q limit, Z.of_nat (length (fetch_unsynced q limit)) <= limit).
Proof.
  intros H. specialize (H [reading "a" 100; reading "b" 200; reading "c" 300] (-1)).
  vm_compute in H. apply H. reflexivity.
Qed.

(** C2 (amended): [fetch_unsynced q limit] returns only rows of [q] with
    [synced=0] and [dead=0], in ascending [ts_epoch_utc] order; for
    [limit >= 0] it returns at most [limit] rows (a negative [limit] is no
    bound: all pending rows come back); rows of equal [ts_epoch_utc] come in
    rowid order: for every epoch [e], the rows of epoch [e] returned are a
    prefix of the pending rows of epoch [e] in table (rowid) order; and with the three readings of
    epochs 100, 200, 300 appended by the producer, [limit = 2] returns the
    epochs 100 and 200 in that order. *)
Theorem fetch_unsynced_spec :
  forall q limit,
    (forall r, In r (fetch_unsynced q limit) ->
               In r q /\ synced r = false /\ dead r = false) /\
    Sorted epoch_le (fetch_unsynced q limit) /\
    (0 <= limit -> Z.of_nat (length (fetch_unsynced q limit)) <= limit) /\
    (limit < 0 -> fetch_unsynced q limit = order_by_epoch (filter is_pending q)) /\
    (forall e, exists rest,
       filter (fun r => ts_epoch_utc r =? e) (fetch_unsynced q limit) ++ rest
       = filter (fun r => ts_epoch_utc r =? e) (filter is_pending q)) /\
    option_map (fun q => map ts_epoch_utc (fetch_unsynced q 2)) scenario_queue
      = Some [100; 200].
Proof.
  intros q limit. split; [|split; [|split; [|split; [|split]]]].
  - intros r Hr. apply in_fetch_unsynced in Hr as [Hin Hp].
    apply is_pending_flags in Hp. tauto.
  - unfold fetch_unsynced, sql_limit. destruct (limit <? 0).
    + apply order_by_epoch_sorted.
    + apply firstn_sorted, order_by_epoch_sorted.
  - intros Hl. unfold fetch_unsynced, sql_limit.
    destruct (limit <? 0) eqn:E; [lia|].
    rewrite length_firstn. lia.
  - intros Hl. unfold fetch_unsynced, sql_limit.
    destruct (limit <? 0) eqn:E; [reflexivity|lia].
  - intros e. unfold fetch_unsynced, sql_limit.
    rewrite <- (filter_order_by_epoch e (filter is_pending q)).
    destruct (limit <? 0).
    + exists []. apply app_nil_r.
    + set (l := order_by_epoch (filter is_pending q)).
      exists (filter (fun r => ts_epoch_utc r =? e) (skipn (Z.to_nat limit) l)).
      rewrite <- filter_app, firstn_skipn. reflexivity.
  - reflexivity.
Qed.

Lemma fetch_unsynced_spec_witness :
  (Z.of_nat (length (fetch_unsynced [reading "a" 100; reading "b" 50] 1)) <= 1) /\
  fetch_unsynced [reading "a" 100; reading "b" 50] (-1)
  = order_by_epoch (filter is_pending [reading "a" 100; reading "b" 50]).
Proof.
  destruct (fetch_unsynced_spec [reading "a" 100; reading "b" 50] 1) as (_ & _ & H1 & _).
  destruct (fetch_unsynced_spec [reading "a" 100; reading "b" 50] (-1)) as (_ & _ & _ & H2 & _).
  split; [apply H1; lia|apply H2; lia].
Defined.

(** ** Lemmas on [mark_synced] and [mark_attempt_failed] *)

Lemma executemany_update_map upd uuids q :
  executemany_update upd uuids q = map (row_updates upd uuids) q.
Proof.
  unfold executemany_update, row_updates. revert q.
  induction uuids as [|u us IH]; intros q; simpl.
  - symmetry. apply map_id.
  - rewrite IH. unfold update_where_uuid. rewrite map_map. reflexivity.
Qed.

Lemma row_updates_iter upd uuids r :
  (forall x, reading_uuid (upd x) = reading_uuid x) ->
  row_updates upd uuids r
  = Nat.iter (count_occ string_dec uuids (reading_uuid r)) upd r.
Proof.
  intros Hu. unfold row_updates. revert r.
  induction uuids as [|u us IH]; intros r; simpl; [reflexivity|].
  destruct (String.eqb (reading_uuid r) u) eqn:E.
  - apply String.eqb_eq in E. rewrite IH, Hu.
    destruct (string_dec u (reading_uuid r)); [|congruence].
    rewrite Nat.iter_succ_r. reflexivity.
  - apply String.eqb_neq in E. rewrite IH.
    destruct (string_dec u (reading_uuid r)); [congruence|reflexivity].
Qed.

Lemma iter_set_synced now n r :
  Nat.iter (S n) (set_synced now) r = attempt_row r true (attempts r + Z.of_nat (S n)) now.
Proof.
  induction n as [|n IH].
  - reflexivity.
  - rewrite Nat.iter_succ, IH. unfold set_synced, attempt_row; simpl. f_equal. lia.
Qed.

Lemma iter_set_attempt_failed now n r :
  Nat.iter (S n) (set_attempt_failed now) r
  = attempt_row r (synced r) (attempts r + Z.of_nat (S n)) now.
Proof.
  induction n as [|n IH].
  - reflexivity.
  - rewrite Nat.iter_succ, IH. unfold set_attempt_failed, attempt_row; simpl. f_equal. lia.
Qed.

Lemma mark_synced_map now uuids q :
  mark_synced now uuids q
  = map (fun r => Nat.iter (count_occ string_dec uuids (reading_uuid r))
                           (set_synced now) r) q.
Proof.
  unfold mark_synced. destruct uuids as [|u us].
  - symmetry. apply map_id.
  - rewrite executemany_update_map. apply map_ext. intros r.
    apply row_updates_iter. reflexivity.
Qed.

Lemma mark_attempt_failed_map now uuids q :
  mark_attempt_failed now uuids q
  = map (fun r => Nat.iter (count_occ string_dec uuids (reading_uuid r))
                           (set_attempt_failed now) r) q.
Proof.
  unfold mark_attempt_failed. destruct uuids as [|u us].
  - symmetry. apply map_id.
  - rewrite executemany_update_map. apply map_ext. intros r.
    apply row_updates_iter. reflexivity.
Qed.

Lemma nth_error_map_some {X Y} (f : X -> Y) l i x :
  nth_error l i = Some x -> nth_error (map f l) i = Some (f x).
Proof. intros H. rewrite nth_error_map, H. reflexivity. Qed.

(** ** Claim C8 *)

(** C8 (as stated, refuted): "[mark_synced(uuids)] increments [attempts] by
    exactly 1 for every record whose [reading_uuid] is in the list" fails
    when the list names a uuid twice: [executemany] runs the UPDATE once per
    list element, so the row's [attempts] goes up by 2. *)
Lemma mark_synced_duplicate_uuid_counterexample :
  ~ (forall now uuids q i r r',
       nth_error q i = Some r ->
       nth_error (mark_synced now uuids q) i = Some r' ->
       In (reading_uuid r) uuids ->
       attempts r' = attempts r + 1).
Proof.
  intros H.
  specialize (H 0 ["a"%string; "a"%string] [reading "a" 100] 0%nat (reading "a" 100)
                (attempt_row (reading "a" 100) true 2 0) eq_refl eq_refl).
  simpl in H. discriminate (H (or_introl eq_refl)).
Qed.

(** C8 (amended): [mark_synced now uuids] and [mark_attempt_failed now uuids]
    leave every row whose [reading_uuid] is not in [uuids] unchanged; a row
    whose [reading_uuid] occurs [k >= 1] times in [uuids] gets [attempts]
    increased by [k] and [last_attempt_utc] set ([mark_synced] also sets
    [synced=1]; [mark_attempt_failed] keeps both flags), every other column
    unchanged; when [uuids] has no duplicates (the forwarder passes the
    [reading_uuid] values of distinct rows) that is exactly [+1]. *)
Theorem mark_synced_attempt_failed_spec :
  forall now uuids q i r,
    nth_error q i = Some r ->
    let k := count_occ string_dec uuids (reading_uuid r) in
    (~ In (reading_uuid r) uuids ->
       nth_error (mark_synced now uuids q) i = Some r /\
       nth_error (mark_attempt_failed now uuids q) i = Some r) /\
    (In (reading_uuid r) uuids ->
       nth_error (mark_synced now uuids q) i
         = Some (attempt_row r true (attempts r + Z.of_nat k) now) /\
       nth_error (mark_attempt_failed now uuids q) i
         = Some (attempt_row r (synced r) (attempts r + Z.of_nat k) now) /\
       (NoDup uuids -> k = 1%nat)).
Proof.
  intros now uuids q i r Hr k.
  rewrite mark_synced_map, mark_attempt_failed_map.
  rewrite !(nth_error_map_some _ _ _ _ Hr). subst k. split.
  - intros Hn. apply (count_occ_not_In string_dec) in Hn. rewrite Hn. auto.
  - intros Hin. pose proof Hin as Hc. apply (count_occ_In string_dec) in Hc.
    destruct (count_occ string_dec uuids (reading_uuid r)) as [|n] eqn:E; [lia|].
    rewrite iter_set_synced, iter_set_attempt_failed.
    split; [reflexivity|split; [reflexivity|]].
    intros Hnd. apply (NoDup_count_occ string_dec) with (x := reading_uuid r) in Hnd.
    lia.
Qed.

Lemma mark_synced_attempt_failed_spec_witness :
  nth_error (mark_synced 1000 ["a"%string] [reading "a" 100]) 0%nat
  = Some (attempt_row (reading "a" 100) true 1 1000).
Proof.
  destruct (mark_synced_attempt_failed_spec 1000 ["a"%string] [reading "a" 100] 0%nat
              (reading "a" 100) eq_refl) as [_ H].
  destruct (H (or_introl eq_refl)) as (Hs & _ & _). exact Hs.
Defined.

(** ** Lemmas on [push_with_split] *)

Section PushWithSplitProofs.

Context {A E : Type} (push : list A -> option E).

Lemma push_split_fuel_enough n m batch :
  (length batch <= n)%nat -> (length batch <= m)%nat ->
  push_split_fuel push n batch = push_split_fuel push m batch.
Proof.
  revert m batch. induction n as [|n IH]; intros m batch Hn Hm.
  - destruct batch; [destruct m; reflexivity|simpl in Hn; lia].
  - destruct batch as [|a t]; [destruct m; reflexivity|].
    destruct m as [|m]; [simpl in Hm; lia|].
    cbn [push_split_fuel].
    destruct (push (a :: t)) as [e|]; [|reflexivity].
    destruct (Nat.eqb (length (a :: t)) 1) eqn:E1; [reflexivity|].
    apply Nat.eqb_neq in E1.
    set (mid := Nat.div (length (a :: t)) 2).
    assert (Hmid1 : (length (firstn mid (a :: t)) <= length t)%nat).
    { rewrite length_firstn. subst mid. simpl length in *.
      pose proof (Nat.Div0.div_le_upper_bound (S (length t)) 2 (length t)). lia. }
    assert (Hmid2 : (length (skipn mid (a :: t)) <= length t)%nat).
    { rewrite length_skipn. subst mid. simpl length in *.
      assert (1 <= S (length t) / 2)%nat
        by (apply Nat.div_le_lower_bound; lia). lia. }
    simpl length in Hn, Hm.
    rewrite (IH m (firstn mid (a :: t))) by lia.
    destruct (push_split_fuel push m (firstn mid (a :: t))) as [c1 [e1|]];
      [reflexivity|].
    rewrite (IH m (skipn mid (a :: t))) by lia. reflexivity.
Qed.

(** [push_with_split] satisfies the recursive definition of sync.py. *)
Lemma push_with_split_eq batch :
  push_with_split push batch =
  match batch with
  | [] => ([], None)
  | _ :: _ =>
    match push batch with
    | None => ([(batch, None)], None)
    | Some e =>
      if Nat.eqb (length batch) 1 then ([(batch, Some e)], Some e)
      else
        let mid := Nat.div (length batch) 2 in
        let (c1, r1) := push_with_split push (firstn mid batch) in
        match r1 with
        | Some e1 => ((batch, Some e) :: c1, Some e1)
        | None =>
          let (c2, r2) := push_with_split push (skipn mid batch) in
          ((batch, Some e) :: c1 ++ c2, r2)
        end
    end
  end.
Proof.
  unfold push_with_split at 1. destruct batch as [|a t]; [reflexivity|].
  cbn [length push_split_fuel].
  destruct (push (a :: t)) as [e|]; [|reflexivity].
  destruct (Nat.eqb (S (length t)) 1) eqn:E1; [reflexivity|].
  apply Nat.eqb_neq in E1.
  set (mid := Nat.div (S (length t)) 2).
  assert (Hmid1 : (length (firstn mid (a :: t)) <= length t)%nat).
  { rewrite length_firstn. subst mid. simpl length.
    pose proof (Nat.Div0.div_le_upper_bound (S (length t)) 2 (length t)). lia. }
  assert (Hmid2 : (length (skipn mid (a :: t)) <= length t)%nat).
  { rewrite length_skipn. subst mid. simpl length.
    assert (1 <= S (length t) / 2)%nat
      by (apply Nat.div_le_lower_bound; lia). lia. }
  unfold push_with_split.
  rewrite (push_split_fuel_enough (length t) (length (firstn mid (a :: t)))) by lia.
  destruct (push_split_fuel push (length (firstn mid (a :: t))) (firstn mid (a :: t)))
    as [c1 [e1|]]; [reflexivity|].
  rewrite (push_split_fuel_enough (length t) (length (skipn mid (a :: t)))) by lia.
  reflexivity.
Qed.

Lemma push_with_split_single a e :
  push [a] = Some e -> push_with_split push [a] = ([([a], Some e)], Some e).
Proof. intros Hp. rewrite push_with_split_eq, Hp. reflexivity. Qed.

Lemma push_with_split_split batch e :
  (2 <= length batch)%nat -> push batch = Some e ->
  push_with_split push batch =
  let mid := Nat.div (length batch) 2 in
  let (c1, r1) := push_with_split push (firstn mid batch) in
  match r1 with
  | Some e1 => ((batch, Some e) :: c1, Some e1)
  | None =>
    let (c2, r2) := push_with_split push (skipn mid batch) in
    ((batch, Some e) :: c1 ++ c2, r2)
  end.
Proof.
  intros Hl Hp. rewrite push_with_split_eq.
  destruct batch as [|a t]; [simpl in Hl; lia|]. rewrite Hp.
  destruct (Nat.eqb (length (a :: t)) 1) eqn:E1;
    [apply Nat.eqb_eq in E1; lia|reflexivity].
Qed.

End PushWithSplitProofs.

Lemma log2_up_half_ceil n :
  (2 <= n)%nat -> (Nat.log2_up (n - n / 2) + 1 <= Nat.log2_up n)%nat.
Proof.
  intros Hn.
  destruct (Nat.log2_up_spec n) as [_ Hle]; [lia|].
  pose proof (Nat.log2_up_pos n ltac:(lia)) as Hpos.
  set (k := Nat.log2_up n) in *.
  assert (Hk : (2 ^ k = 2 * 2 ^ (k - 1))%nat).
  { replace k with (S (k - 1)) at 1 by lia. reflexivity. }
  pose proof (Nat.div_mod n 2 ltac:(lia)) as Hdm.
  pose proof (Nat.mod_upper_bound n 2 ltac:(lia)) as Hmb.
  assert (H : (n - n / 2 <= 2 ^ (k - 1))%nat) by lia.
  apply Nat.log2_up_le_pow2 in H; [lia|].
  assert (1 <= n / 2)%nat by (apply Nat.div_le_lower_bound; lia). lia.
Qed.

Lemma log2_up_half_floor n :
  (2 <= n)%nat -> (Nat.log2_up (n / 2) + 1 <= Nat.log2_up n)%nat.
Proof.
  intros Hn. pose proof (log2_up_half_ceil n Hn).
  assert (Nat.log2_up (n / 2) <= Nat.log2_up (n - n / 2))%nat.
  { apply Nat.log2_up_le_mono.
    pose proof (Nat.div_mod n 2 ltac:(lia)). lia. }
  lia.
Qed.

Lemma written_cons_fail {A E} (l : list A) (e : E) calls :
  written ((l, Some e) :: calls) = written calls.
Proof. reflexivity. Qed.

Lemma written_cons_ok {A E} (l : list A) (calls : list (list A * option E)) :
  written ((l, None) :: calls) = l ++ written calls.
Proof. reflexivity. Qed.

Lemma written_app {A E} (c1 c2 : list (list A * option E)) :
  written (c1 ++ c2) = written c1 ++ written c2.
Proof. unfold written. rewrite filter_app, map_app, concat_app. reflexivity. Qed.

Lemma in_firstn_in {X} (x : X) n l : In x (firstn n l) -> In x l.
Proof. intros H. rewrite <- (firstn_skipn n l). apply in_or_app. now left. Qed.

Lemma in_skipn_in {X} (x : X) n l : In x (skipn n l) -> In x l.
Proof. intros H. rewrite <- (firstn_skipn n l). apply in_or_app. now right. Qed.

Section PoisonPill.

Context {A E : Type} (push : list A -> option E) (b : A).
Hypothesis reject_b : forall l, In b l -> push l <> None.
Hypothesis accept_others : forall l, ~ In b l -> push l = None.

Lemma push_with_split_clean l :
  ~ In b l -> l <> [] -> push_with_split push l = ([(l, None)], None).
Proof.
  intros Hn Hne. rewrite push_with_split_eq.
  destruct l as [|x t]; [congruence|]. rewrite (accept_others _ Hn). reflexivity.
Qed.

Lemma push_with_split_poison_aux n : forall pre post,
  ~ In b pre -> (length (pre ++ b :: post) <= n)%nat ->
  snd (push_with_split push (pre ++ b :: post)) = push [b] /\
  written (fst (push_with_split push (pre ++ b :: post))) = pre /\
  (length (fst (push_with_split push (pre ++ b :: post)))
     <= 2 * Nat.log2_up (length (pre ++ b :: post)) + 1)%nat.
Proof.
  induction n as [|n IH]; intros pre post Hpre Hlen.
  { rewrite length_app in Hlen. simpl in Hlen. lia. }
  assert (Hb : In b (pre ++ b :: post)) by (apply in_or_app; right; now left).
  destruct (push (pre ++ b :: post)) as [e|] eqn:Ep;
    [|exfalso; exact (reject_b _ Hb Ep)].
  destruct (Nat.le_gt_cases 2 (length (pre ++ b :: post))) as [Hlen2|Hlen1].
  2:{ (* a single record: it is [b] *)
    destruct pre as [|p pre'];
      [|rewrite length_app in Hlen1; simpl in Hlen1; lia].
    destruct post as [|p post']; [|simpl in Hlen1; lia].
    simpl in *. rewrite (push_with_split_single _ _ _ Ep). simpl. rewrite Ep.
    split; [reflexivity|split; [reflexivity|lia]]. }
  rewrite (push_with_split_split _ _ _ Hlen2 Ep).
  set (len := length (pre ++ b :: post)) in *.
  set (mid := Nat.div len 2). cbv zeta.
  assert (Hmid1 : (1 <= mid)%nat) by (apply Nat.div_le_lower_bound; lia).
  assert (Hmid2 : (mid < len)%nat) by (apply Nat.div_lt; lia).
  assert (Hlpre : len = (length pre + S (length post))%nat)
    by (subst len; rewrite length_app; reflexivity).
  destruct (Nat.lt_ge_cases (length pre) mid) as [Hlt|Hge].
  - (* [b] lies in the first half *)
    assert (Hf : firstn mid (pre ++ b :: post)
                 = pre ++ b :: firstn (mid - length pre - 1) post).
    { rewrite firstn_app, firstn_all2 by lia. f_equal.
      destruct (mid - length pre)%nat as [|k] eqn:Ed; [lia|].
      simpl. f_equal. f_equal. lia. }
    rewrite Hf.
    destruct (IH pre (firstn (mid - length pre - 1) post)) as (Hr & Hw & Hc);
      [exact Hpre| rewrite <- Hf, length_firstn; lia|].
    destruct (push_with_split push (pre ++ b :: firstn (mid - length pre - 1) post))
      as [c1 r1] eqn:Ec1.
    simpl in Hr, Hw, Hc. subst r1.
    destruct (push [b]) as [e1|] eqn:Eb1;
      [|exfalso; exact (reject_b [b] (or_introl eq_refl) Eb1)].
    simpl. split; [reflexivity|split; [exact Hw|]].
    rewrite <- Hf, length_firstn in Hc. fold len in Hc.
    rewrite Nat.min_l in Hc by lia.
    pose proof (log2_up_half_floor len Hlen2). fold mid in H. lia.
  - (* [b] lies in the second half: the first half is written *)
    assert (Hf : firstn mid (pre ++ b :: post) = firstn mid pre).
    { rewrite firstn_app. replace (mid - length pre)%nat with 0%nat by lia.
      apply app_nil_r. }
    assert (Hs : skipn mid (pre ++ b :: post) = skipn mid pre ++ b :: post).
    { rewrite skipn_app. replace (mid - length pre)%nat with 0%nat by lia.
      reflexivity. }
    rewrite Hf, Hs.
    rewrite push_with_split_clean;
      [|intros Hin; apply Hpre; eapply in_firstn_in; exact Hin
       |intros Hnil; apply (f_equal (@length A)) in Hnil;
        rewrite length_firstn in Hnil; simpl in Hnil; lia].
    assert (Hpre2 : ~ In b (skipn mid pre))
      by (intros Hin; apply Hpre; eapply in_skipn_in; exact Hin).
    destruct (IH (skipn mid pre) post) as (Hr & Hw & Hc);
      [exact Hpre2| rewrite length_app, length_skipn; simpl; lia|].
    destruct (push_with_split push (skipn mid pre ++ b :: post)) as [c2 r2] eqn:Ec2.
    simpl in Hr, Hw, Hc. simpl.
    split; [exact Hr|split].
    + transitivity (firstn mid pre ++ written c2); [reflexivity|].
      rewrite Hw. apply firstn_skipn.
    + rewrite length_app, length_skipn in Hc. simpl length in Hc.
      replace (length pre - mid + S (length post))%nat with (len - mid)%nat in Hc by lia.
      pose proof (log2_up_half_ceil len Hlen2). fold mid in H. lia.
Qed.

End PoisonPill.

Lemma reject_zero_rejects l : In 0%nat l -> reject_zero l <> None.
Proof.
  unfold reject_zero. intros Hin.
  destruct (existsb (Nat.eqb 0) l) eqn:Ex; [discriminate|].
  exfalso. assert (existsb (Nat.eqb 0) l = true) as Ht
    by (apply existsb_exists; exists 0%nat; split; [exact Hin|reflexivity]).
  congruence.
Qed.

Lemma reject_zero_accepts l : ~ In 0%nat l -> reject_zero l = None.
Proof.
  unfold reject_zero. intros Hn.
  destruct (existsb (Nat.eqb 0) l) eqn:Ex; [|reflexivity].
  apply existsb_exists in Ex as [x [Hx Hx0]].
  apply Nat.eqb_eq in Hx0. subst x. contradiction.
Qed.

(** ** Claim C3 *)

(** C3 (code bug): the claim, and the docstring of [push_with_split]
    ("divide o lote pra isolar poison pill"), have the two halves of a
    rejected batch retried independently, so that every record is offered
    ([push_with_split_as_specified]).  The code does not: on [[0; 1]]
    against a store that rejects every bulk write containing record 0, it
    offers [[0; 1]], then the first half [[0]], whose rejection propagates at
    once; the second half [[1]] is never offered and nothing is written,
    where the specified behaviour also offers [[1]] and writes it. *)
Theorem push_with_split_skips_second_half :
  push_with_split reject_zero [0; 1]%nat
    = ([([0; 1]%nat, Some "Data truncated for column"%string);
        ([0]%nat, Some "Data truncated for column"%string)],
       Some "Data truncated for column"%string) /\
  push_with_split_as_specified reject_zero [0; 1]%nat
    = ([([0; 1]%nat, Some "Data truncated for column"%string);
        ([0]%nat, Some "Data truncated for column"%string);
        ([1]%nat, None)],
       Some "Data truncated for column"%string) /\
  ~ (exists c, In c (fst (push_with_split reject_zero [0; 1]%nat)) /\ In 1%nat (fst c)
               /\ ~ In 0%nat (fst c)) /\
  written (fst (push_with_split reject_zero [0; 1]%nat)) = [] /\
  written (fst (push_with_split_as_specified reject_zero [0; 1]%nat)) = [1%nat].
Proof.
  split; [reflexivity|split; [reflexivity|split; [|split; reflexivity]]].
  intros [c [Hin [H1 H0]]]. simpl in Hin.
  destruct Hin as [<-|[<-|[]]]; simpl in *; tauto.
Qed.

Lemma push_with_split_skips_second_half_witness :
  snd (push_with_split reject_zero [0; 1]%nat) = Some "Data truncated for column"%string.
Proof. rewrite (proj1 push_with_split_skips_second_half). reflexivity. Defined.

(** ** Claim C4 *)

(** C4 (code bug): for a batch [pre ++ b :: post] in which every bulk write
    containing the malformed record [b] is rejected and every bulk write
    without [b] succeeds, [push_with_split] propagates the rejection of [[b]]
    alone, but the records written are only those before [b]: when [post]
    is not empty its records are never delivered, not the [N - 1] other
    records the claim promises.  The call count also exceeds the claimed
    [ceil(log2 N) + 1]: the batch [[1; 0]] already takes 3 bulk writes. *)
Theorem push_with_split_poison_drops_rest :
  (forall (A E : Type) (push : list A -> option E) (pre post : list A) (b : A),
    ~ In b pre ->
    (forall l, In b l -> push l <> None) ->
    (forall l, ~ In b l -> push l = None) ->
    post <> [] ->
    snd (push_with_split push (pre ++ b :: post)) = push [b] /\
    written (fst (push_with_split push (pre ++ b :: post))) = pre /\
    written (fst (push_with_split push (pre ++ b :: post))) <> pre ++ post) /\
  (length (fst (push_with_split reject_zero [1; 0]%nat))
     > Nat.log2_up (length [1; 0]%nat) + 1)%nat.
Proof.
  split; [|vm_compute; lia].
  intros A E push pre post b Hpre Hrej Hacc Hpost.
  destruct (push_with_split_poison_aux push b Hrej Hacc _ pre post Hpre (le_n _))
    as (Hs & Hw & _).
  split; [exact Hs|split; [exact Hw|]].
  rewrite Hw. intros Heq.
  assert (Hl : length pre = length (pre ++ post)) by (rewrite <- Heq; reflexivity).
  rewrite length_app in Hl. destruct post; [contradiction|simpl in Hl; lia].
Qed.

Lemma push_with_split_poison_drops_rest_witness :
  ~ In 0%nat [1]%nat /\
  written (fst (push_with_split reject_zero ([1] ++ 0 :: [2])%nat)) = [1]%nat /\
  written (fst (push_with_split reject_zero ([1] ++ 0 :: [2])%nat)) <> [1; 2]%nat.
Proof.
  assert (Hn : ~ In 0%nat [1]%nat) by (simpl; intuition discriminate).
  split; [exact Hn|].
  destruct (proj1 push_with_split_poison_drops_rest nat string reject_zero [1]%nat [2]%nat 0%nat
           Hn reject_zero_rejects reject_zero_accepts ltac:(discriminate)) as (_ & Hw & Hne).
  split; [exact Hw|exact Hne].
Defined.

(** ** Lemmas on uniqueness of [reading_uuid] *)

Lemma nodup_map_inj {X Y} (f : X -> Y) l a b :
  NoDup (map f l) -> In a l -> In b l -> f a = f b -> a = b.
Proof.
  induction l as [|x t IH]; simpl; [tauto|].
  intros Hnd Ha Hb Hf. inversion Hnd as [|? ? Hnin Hnd']; subst.
  destruct Ha as [<-|Ha], Hb as [<-|Hb]; auto.
  - exfalso. apply Hnin. rewrite Hf. now apply in_map.
  - exfalso. apply Hnin. rewrite <- Hf. now apply in_map.
Qed.

Lemma nodup_map_filter {X Y} (f : X -> Y) p l :
  NoDup (map f l) -> NoDup (map f (filter p l)).
Proof.
  induction l as [|x t IH]; simpl; [auto|].
  intros Hnd. inversion Hnd as [|? ? Hnin Hnd']; subst.
  destruct (p x); simpl; [|auto].
  constructor; [|auto].
  intros Hin. apply Hnin. apply in_map_iff in Hin as [y [Hy Hin]].
  apply filter_In in Hin as [Hin _]. rewrite <- Hy. now apply in_map.
Qed.

Lemma map_uuid_preserving (g : row -> row) q :
  (forall x, reading_uuid (g x) = reading_uuid x) ->
  map reading_uuid (map g q) = map reading_uuid q.
Proof. intros Hg. rewrite map_map. apply map_ext. exact Hg. Qed.

Lemma tracked_map (g : row -> row) q r r' :
  NoDup (map reading_uuid q) -> (forall x, reading_uuid (g x) = reading_uuid x) ->
  In r q -> In r' (map g q) -> reading_uuid r' = reading_uuid r -> r' = g r.
Proof.
  intros Hnd Hg Hr Hr' Hu. apply in_map_iff in Hr' as [r0 [<- Hr0]].
  f_equal. apply (nodup_map_inj reading_uuid q); auto. rewrite <- Hg. exact Hu.
Qed.

Lemma tracked_filter p q r r' :
  NoDup (map reading_uuid q) -> In r q -> In r' (filter p q) ->
  reading_uuid r' = reading_uuid r -> r' = r.
Proof.
  intros Hnd Hr Hr' Hu. apply filter_In in Hr' as [Hr' _].
  apply (nodup_map_inj reading_uuid q); auto.
Qed.

(** ** Row-level effect of each forwarder operation *)

Lemma iter_uuid (g : row -> row) n r :
  (forall x, reading_uuid (g x) = reading_uuid x) ->
  reading_uuid (Nat.iter n g r) = reading_uuid r.
Proof.
  intros Hg. induction n as [|n IH]; [reflexivity|].
  rewrite Nat.iter_succ, Hg. exact IH.
Qed.

Lemma retained_queue_eq en days now q :
  out_queue (retention_cleanup en days now q)
  = if en then
      match retention_cutoff now days with
      | Some c => filter (fun r => negb (retention_victim c r)) q
      | None => q
      end
    else q.
Proof.
  unfold retention_cleanup. destruct en; [|reflexivity].
  destruct (retention_cutoff now days); reflexivity.
Qed.

Lemma maintenance_raises_queue cfg now q :
  maintenance_raises cfg now q = true ->
  out_queue (retention_cleanup (ENABLE_RETENTION cfg) (RETENTION_DAYS cfg) now q) = q.
Proof.
  unfold maintenance_raises, retention_cleanup.
  destruct (ENABLE_RETENTION cfg); [|reflexivity].
  destruct (retention_cutoff now (RETENTION_DAYS cfg)); [discriminate|reflexivity].
Qed.

Lemma run_maintenance_eq cfg now q :
  run_maintenance cfg now q
  = if maintenance_raises cfg now q then q
    else map (sweep_row (MAX_SYNC_ATTEMPTS cfg))
           (out_queue (retention_cleanup (ENABLE_RETENTION cfg) (RETENTION_DAYS cfg) now q)).
Proof.
  destruct (maintenance_raises cfg now q) eqn:E.
  - rewrite <- (maintenance_raises_queue cfg now q E) at 2.
    unfold run_maintenance. unfold maintenance_raises in E.
    destruct (out_return _); [discriminate|discriminate|reflexivity].
  - unfold run_maintenance. unfold maintenance_raises in E.
    destruct (out_return _); [reflexivity|reflexivity|discriminate].
Qed.

Lemma in_retained r en days now q :
  In r (out_queue (retention_cleanup en days now q)) -> In r q.
Proof.
  rewrite retained_queue_eq. destruct en; [|auto].
  destruct (retention_cutoff now days); [|auto].
  intros H. apply filter_In in H. tauto.
Qed.

Lemma nodup_retained en days now q :
  NoDup (map reading_uuid q) ->
  NoDup (map reading_uuid (out_queue (retention_cleanup en days now q))).
Proof.
  rewrite retained_queue_eq. destruct en; [|auto].
  destruct (retention_cutoff now days); [apply nodup_map_filter|auto].
Qed.

Lemma forwarder_begin_queue cfg now w :
  queue_of (forwarder_begin cfg now w)
  = if maintenance_due (fwd w) (utc_date now)
    then run_maintenance cfg now (queue_of w) else queue_of w.
Proof.
  unfold forwarder_begin.
  destruct (forwarder_begin_raises cfg now w) eqn:Er0.
  { unfold forwarder_begin_raises in Er0. apply andb_true_iff in Er0 as [-> _].
    reflexivity. }
  destruct (maintenance_due (fwd w) (utc_date now)); simpl;
  destruct (mysql_ready cfg); simpl; try reflexivity;
  match goal with |- context [?a <? ?b] => destruct (a <? b) end; try reflexivity;
  match goal with |- context [fetch_unsynced ?q ?l] => destruct (fetch_unsynced q l) end;
  reflexivity.
Qed.

Lemma forwarder_begin_fwd cfg now w :
  let w' := forwarder_begin cfg now w in
  mysql_fail_count (fwd w') = mysql_fail_count (fwd w) /\
  next_try (fwd w') = next_try (fwd w) /\
  (inflight (fwd w') = inflight (fwd w) \/
   (mysql_ready cfg = true /\ next_try (fwd w) <= now /\
    fetch_unsynced (queue_of w') (MYSQL_BATCH_SIZE cfg) <> [] /\
    inflight (fwd w') = Some (map reading_uuid
                                (fetch_unsynced (queue_of w') (MYSQL_BATCH_SIZE cfg))))).
Proof.
  unfold forwarder_begin.
  destruct (forwarder_begin_raises cfg now w) eqn:Er0.
  { cbn [fwd]. split; [reflexivity|split; [reflexivity|left; reflexivity]]. }
  destruct (maintenance_due (fwd w) (utc_date now)); simpl;
  destruct (mysql_ready cfg) eqn:Er; simpl; try (repeat split; left; reflexivity);
  destruct (now <? next_try (fwd w)) eqn:Et; simpl; try (repeat split; left; reflexivity);
  match goal with |- context [fetch_unsynced ?q ?l] => destruct (fetch_unsynced q l) eqn:Ef end;
  simpl; try (repeat split; left; reflexivity);
  (split; [reflexivity|split; [reflexivity|right]]);
  rewrite Ef; (split; [reflexivity|split; [lia|split; [discriminate|reflexivity]]]).
Qed.

Lemma evolves_refl r : evolves r r.
Proof. split; [left; reflexivity|lia]. Qed.

Lemma sweep_row_uuid m r : reading_uuid (sweep_row m r) = reading_uuid r.
Proof. unfold sweep_row. destruct (dead_candidate m r); reflexivity. Qed.

Lemma sweep_row_sound m r :
  state_of r <> None -> evolves r (sweep_row m r) /\ state_of (sweep_row m r) <> None.
Proof.
  intros Hs. unfold sweep_row, dead_candidate.
  destruct (is_pending r && (m <=? attempts r)) eqn:Ec.
  - apply andb_true_iff in Ec as [Hp _]. apply is_pending_flags in Hp as [Hs0 Hd0].
    unfold evolves, allowed_transition, state_of, set_dead; simpl.
    rewrite Hs0, Hd0. split; [split; [right; split; [reflexivity|right; reflexivity]|lia]
                            |discriminate].
  - split; [apply evolves_refl|exact Hs].
Qed.

Lemma finish_row_sound now uuids r :
  (In (reading_uuid r) uuids -> is_pending r = true) -> state_of r <> None ->
  let k := count_occ string_dec uuids (reading_uuid r) in
  evolves r (Nat.iter k (set_synced now) r) /\
  state_of (Nat.iter k (set_synced now) r) <> None /\
  evolves r (Nat.iter k (set_attempt_failed now) r) /\
  state_of (Nat.iter k (set_attempt_failed now) r) <> None.
Proof.
  intros Hp Hs k.
  destruct k as [|n] eqn:Ek.
  { simpl. repeat split; try apply evolves_refl; exact Hs. }
  assert (Hin : In (reading_uuid r) uuids)
    by (apply (count_occ_In string_dec); subst k; lia).
  apply Hp, is_pending_flags in Hin as [Hs0 Hd0].
  rewrite iter_set_synced, iter_set_attempt_failed.
  unfold evolves, allowed_transition, state_of, attempt_row; simpl.
  rewrite Hs0, Hd0.
  repeat split; try discriminate; try lia.
  - right. split; [reflexivity|left; reflexivity].
  - left. reflexivity.
Qed.

Lemma map_step_evolves (g : row -> row) q r r' :
  NoDup (map reading_uuid q) -> (forall x, reading_uuid (g x) = reading_uuid x) ->
  (forall x, In x q -> evolves x (g x)) ->
  In r q -> In r' (map g q) -> reading_uuid r' = reading_uuid r -> evolves r r'.
Proof.
  intros Hnd Hg Hev Hr Hr' Hu.
  rewrite (tracked_map g q r r' Hnd Hg Hr Hr' Hu). now apply Hev.
Qed.

Lemma insert_queue_cases store dk st sp u ep ts t h okv err q q' e :
  insert_queue store dk st sp u ep ts t h okv err q = (q', e) ->
  q' = q \/
  (~ In u (map reading_uuid q) /\
   q' = q ++ [mkRow u dk st sp ep ts t h okv err false false 0 None]).
Proof.
  unfold insert_queue. destruct store as [m|].
  { intros Hq. injection Hq as <- _. left. reflexivity. }
  destruct (existsb (String.eqb u) (map reading_uuid q)) eqn:Ex.
  { intros Hq. injection Hq as <- _. left. reflexivity. }
  intros Hq. right.
  assert (Hq' : q' = q ++ [mkRow u dk st sp ep ts t h okv err false false 0 None]).
  { destruct (okv =? 0); [injection Hq as <- _; reflexivity|].
    destruct t, h; injection Hq as <- _; reflexivity. }
  split; [|exact Hq'].
  intros Hin. assert (existsb (String.eqb u) (map reading_uuid q) = true) as Ht.
  { apply existsb_exists. exists u. split; [exact Hin|apply String.eqb_refl]. }
  congruence.
Qed.

Lemma maintenance_sound cfg now q :
  NoDup (map reading_uuid q) -> (forall r, In r q -> state_of r <> None) ->
  NoDup (map reading_uuid (run_maintenance cfg now q)) /\
  (forall r', In r' (run_maintenance cfg now q) -> state_of r' <> None) /\
  (forall r r', In r q -> In r' (run_maintenance cfg now q) ->
                reading_uuid r' = reading_uuid r -> evolves r r').
Proof.
  intros Hnd Hs. rewrite run_maintenance_eq.
  destruct (maintenance_raises cfg now q).
  { split; [exact Hnd|split; [exact Hs|]].
    intros r r' Hr Hr' Hu.
    assert (r' = r) as -> by (apply (nodup_map_inj reading_uuid q); auto).
    apply evolves_refl. }
  set (q1 := out_queue (retention_cleanup (ENABLE_RETENTION cfg) (RETENTION_DAYS cfg) now q)).
  assert (Hnd1 : NoDup (map reading_uuid q1)) by (apply nodup_retained; exact Hnd).
  split; [|split].
  - rewrite map_uuid_preserving by apply sweep_row_uuid. exact Hnd1.
  - intros r' Hr'. apply in_map_iff in Hr' as [r0 [<- Hr0]].
    apply sweep_row_sound. apply Hs. eapply in_retained. exact Hr0.
  - intros r r' Hr Hr' Hu. apply in_map_iff in Hr' as [r0 [<- Hr0]].
    assert (Hr0q : In r0 q) by (eapply in_retained; exact Hr0).
    rewrite sweep_row_uuid in Hu.
    assert (r0 = r) as -> by (apply (nodup_map_inj reading_uuid q); auto).
    apply sweep_row_sound. now apply Hs.
Qed.

(** ** One step of the producer or the forwarder *)

Lemma step_sound cfg w w' :
  queue_inv w -> step cfg w w' ->
  queue_inv w' /\
  (forall r r', In r (queue_of w) -> In r' (queue_of w') ->
                reading_uuid r' = reading_uuid r -> evolves r r').
Proof.
  intros (Hnd & Hst & Hfl) Hstep.
  destruct Hstep as [w store dk st sp u ep ts t h okv err q' e Hins
                    | w now Hnone Hnr
                    | w now o uuids Hsome
                    | w].
  - (* the producer appends a row, or raises and leaves the table as it was *)
    apply insert_queue_cases in Hins as [->|[Hfresh ->]].
    { split; [split; [exact Hnd|split; [exact Hst|exact Hfl]]|].
      intros r r' Hr Hr' Hu.
      assert (r' = r) as -> by (apply (nodup_map_inj reading_uuid (queue_of w)); auto).
      apply evolves_refl. }
    set (nr := mkRow u dk st sp ep ts t h okv err false false 0 None).
    split; [split; [|split]|]; simpl.
    + rewrite map_app. apply NoDup_app; [exact Hnd|repeat constructor; auto|].
      intros a Ha [<-|[]]. simpl in Ha. exact (Hfresh Ha).
    + intros r Hr. apply in_app_or in Hr as [Hr|[<-|[]]]; [now apply Hst|discriminate].
    + intros uuids Hu r Hr Hin. apply in_app_or in Hr as [Hr|[<-|[]]];
        [eapply Hfl; eauto|reflexivity].
    + intros r r' Hr Hr' Hu. apply in_app_or in Hr' as [Hr'|[<-|[]]].
      * assert (r' = r) as -> by (apply (nodup_map_inj reading_uuid (queue_of w)); auto).
        apply evolves_refl.
      * exfalso. apply Hfresh. simpl in Hu. rewrite Hu. now apply in_map.
  - (* top of a cycle: maintenance, guards, fetch *)
    pose proof (forwarder_begin_queue cfg now w) as Hq.
    destruct (forwarder_begin_fwd cfg now w) as (_ & _ & Hif).
    set (w' := forwarder_begin cfg now w) in *.
    assert (Hq' : NoDup (map reading_uuid (queue_of w')) /\
                  (forall r', In r' (queue_of w') -> state_of r' <> None) /\
                  (forall r r', In r (queue_of w) -> In r' (queue_of w') ->
                                reading_uuid r' = reading_uuid r -> evolves r r')).
    { rewrite Hq. destruct (maintenance_due (fwd w) (utc_date now)).
      - now apply maintenance_sound.
      - split; [exact Hnd|split; [exact Hst|]].
        intros r r' Hr Hr' Hu.
        assert (r' = r) as -> by (apply (nodup_map_inj reading_uuid (queue_of w)); auto).
        apply evolves_refl. }
    destruct Hq' as (Hnd' & Hst' & Hev').
    split; [split; [exact Hnd'|split; [exact Hst'|]]|exact Hev'].
    intros uuids Hu r Hr Hin.
    destruct Hif as [Hif|(_ & _ & _ & Hif)]; [congruence|].
    rewrite Hif in Hu. injection Hu as <-.
    apply in_map_iff in Hin as [r0 [Hu0 Hr0]].
    apply in_fetch_unsynced in Hr0 as [Hr0 Hp0].
    assert (r0 = r) as <- by (apply (nodup_map_inj reading_uuid (queue_of w')); auto).
    exact Hp0.
  - (* end of the try block *)
    unfold forwarder_finish. rewrite Hsome.
    assert (Hrow : forall x, In x (queue_of w) ->
              (In (reading_uuid x) uuids -> is_pending x = true) /\ state_of x <> None)
      by (intros x Hx; split; [apply (Hfl uuids Hsome x Hx)|apply (Hst x Hx)]).
    destruct o; simpl;
      [rewrite mark_synced_map| rewrite mark_attempt_failed_map| |
       rewrite mark_attempt_failed_map]; unfold queue_inv; cbn [queue_of fwd inflight].
    + split; [split; [|split]|].
      * rewrite map_uuid_preserving by (intros; apply iter_uuid; reflexivity). exact Hnd.
      * intros r' Hr'. apply in_map_iff in Hr' as [x [<- Hx]].
        destruct (Hrow x Hx) as [Hp Hs]. apply (finish_row_sound now uuids x Hp Hs).
      * intros uu Huu. discriminate.
      * intros r r' Hr Hr' Hu.
        refine (map_step_evolves _ (queue_of w) r r' Hnd _ _ Hr Hr' Hu).
        -- intros; apply iter_uuid; reflexivity.
        -- intros x Hx. destruct (Hrow x Hx) as [Hp Hs].
           apply (finish_row_sound now uuids x Hp Hs).
    + split; [split; [|split]|].
      * rewrite map_uuid_preserving by (intros; apply iter_uuid; reflexivity). exact Hnd.
      * intros r' Hr'. apply in_map_iff in Hr' as [x [<- Hx]].
        destruct (Hrow x Hx) as [Hp Hs]. apply (finish_row_sound now uuids x Hp Hs).
      * intros uu Huu. discriminate.
      * intros r r' Hr Hr' Hu.
        refine (map_step_evolves _ (queue_of w) r r' Hnd _ _ Hr Hr' Hu).
        -- intros; apply iter_uuid; reflexivity.
        -- intros x Hx. destruct (Hrow x Hx) as [Hp Hs].
           apply (finish_row_sound now uuids x Hp Hs).
    + split; [split; [exact Hnd|split; [exact Hst|intros uu Huu; discriminate]]|].
      intros r r' Hr Hr' Hu.
      assert (r' = r) as -> by (apply (nodup_map_inj reading_uuid (queue_of w)); auto).
      apply evolves_refl.
    + split; [split; [|split]|].
      * rewrite map_uuid_preserving by (intros; apply iter_uuid; reflexivity). exact Hnd.
      * intros r' Hr'. apply in_map_iff in Hr' as [x [<- Hx]].
        destruct (Hrow x Hx) as [Hp Hs]. apply (finish_row_sound now uuids x Hp Hs).
      * intros uu Huu. discriminate.
      * intros r r' Hr Hr' Hu.
        refine (map_step_evolves _ (queue_of w) r r' Hnd _ _ Hr Hr' Hu).
        -- intros; apply iter_uuid; reflexivity.
        -- intros x Hx. destruct (Hrow x Hx) as [Hp Hs].
           apply (finish_row_sound now uuids x Hp Hs).
  - (* restart of the forwarder *)
    simpl. split; [split; [exact Hnd|split; [exact Hst|intros uu Huu; discriminate]]|].
    intros r r' Hr Hr' Hu.
    assert (r' = r) as -> by (apply (nodup_map_inj reading_uuid (queue_of w)); auto).
    apply evolves_refl.
Qed.

Lemma reachable_inv cfg w : reachable cfg w -> queue_inv w.
Proof.
  induction 1 as [|w w' Hr IH Hs].
  - split; [constructor|split; [intros r []|intros uuids Hu; discriminate]].
  - exact (proj1 (step_sound cfg w w' IH Hs)).
Qed.

Lemma w_fetched_reachable : reachable cfg0 w_fetched.
Proof.
  apply (ReachStep cfg0 w_produced).
  - apply (ReachStep cfg0 (mkWorld [] fwd_init)); [constructor|].
    eapply (StepProduce cfg0 (mkWorld [] fwd_init) None "raspi-unknown" "DHT11" "4" "a" 100 ""
             None None 0 (Some "Leitura nula do DHT"%string)).
    reflexivity.
  - apply StepBegin; reflexivity.
Qed.

Lemma w_fetched_inflight : inflight (fwd w_fetched) = Some ["a"%string].
Proof. reflexivity. Qed.

(** ** Claim C1 *)

(** C1: in every reachable world, one step of the producer or of the
    forwarder changes the delivery state of a record (the row with the same
    [reading_uuid]) only from pending to synced or from pending to dead,
    never out of synced or dead, and never lowers its [attempts]. *)
Theorem delivery_state_transitions :
  forall cfg w w', reachable cfg w -> step cfg w w' ->
  forall r r', In r (queue_of w) -> In r' (queue_of w') ->
    reading_uuid r' = reading_uuid r ->
    allowed_transition (state_of r) (state_of r') /\ attempts r <= attempts r'.
Proof.
  intros cfg w w' Hr Hs r r' Hin Hin' Hu.
  exact (proj2 (step_sound cfg w w' (reachable_inv cfg w Hr) Hs) r r' Hin Hin' Hu).
Qed.

Lemma delivery_state_transitions_witness :
  allowed_transition (state_of (reading "a" 100))
                     (state_of (attempt_row (reading "a" 100) true 1 1001)) /\
  attempts (reading "a" 100) <= attempts (attempt_row (reading "a" 100) true 1 1001).
Proof.
  apply (delivery_state_transitions cfg0 w_fetched w_synced w_fetched_reachable
           (StepFinish cfg0 w_fetched 1001 Delivered ["a"%string] w_fetched_inflight)).
  - left. reflexivity.
  - left. reflexivity.
  - reflexivity.
Defined.

(** ** Claim C10 *)

(** C10: in every world reachable by the producer's [insert_queue] and the
    forwarder loop, no row has [synced=1] and [dead=1] at once. *)
Theorem flags_exclusive :
  forall cfg w, reachable cfg w ->
  forall r, In r (queue_of w) -> ~ (synced r = true /\ dead r = true).
Proof.
  intros cfg w Hr r Hin [Hs Hd].
  destruct (reachable_inv cfg w Hr) as (_ & Hst & _).
  apply (Hst r Hin). unfold state_of. rewrite Hs, Hd. reflexivity.
Qed.

Lemma flags_exclusive_witness :
  ~ (synced (reading "a" 100) = true /\ dead (reading "a" 100) = true).
Proof.
  apply (flags_exclusive cfg0 w_fetched w_fetched_reachable). left. reflexivity.
Defined.

Lemma sweep_row_attempts m r : attempts (sweep_row m r) = attempts r.
Proof. unfold sweep_row. destruct (dead_candidate m r); reflexivity. Qed.

Lemma sweep_row_dead m r :
  dead (sweep_row m r) = true -> dead r = true \/ dead_candidate m r = true.
Proof.
  unfold sweep_row. destruct (dead_candidate m r) eqn:E; [right; reflexivity|left; exact H].
Qed.

(** A forwarder cycle that ends in [sqlite3.OperationalError] leaves the queue
    as the beginning of the cycle left it. *)
Lemma operational_error_cycle_queue cfg t1 t2 w :
  queue_of (forwarder_finish t2 SQLiteOperationalError (forwarder_begin cfg t1 w))
  = if maintenance_due (fwd w) (utc_date t1)
    then run_maintenance cfg t1 (queue_of w) else queue_of w.
Proof.
  rewrite <- forwarder_begin_queue. unfold forwarder_finish.
  destruct (inflight (fwd (forwarder_begin cfg t1 w))); reflexivity.
Qed.

(** ** Claim C5 *)

(** C5: when the [try] block fails with [MySQLError] (or any other
    exception), the failure counter goes up by one and [next_try] becomes
    [now + min(300, 2^min(counter, 8))]; after a delivery the counter is 0
    and [next_try] is [now]; a cycle fetches a batch only when
    [next_try <= now]; three remote failures in a row from counter 0 wait
    2, 4 and 8 seconds, and the pending row's [attempts] reaches 3. *)
Theorem forwarder_backoff :
  (forall now o w uuids, inflight (fwd w) = Some uuids ->
     o = MySQLErrorRaised \/ o = OtherException ->
     mysql_fail_count (fwd (forwarder_finish now o w)) = mysql_fail_count (fwd w) + 1 /\
     next_try (fwd (forwarder_finish now o w))
       = now + Z.min 300 (2 ^ Z.min (mysql_fail_count (fwd w) + 1) 8)) /\
  (forall now w uuids, inflight (fwd w) = Some uuids ->
     mysql_fail_count (fwd (forwarder_finish now Delivered w)) = 0 /\
     next_try (fwd (forwarder_finish now Delivered w)) = now) /\
  (forall cfg now w, inflight (fwd w) = None ->
     inflight (fwd (forwarder_begin cfg now w)) <> None ->
     next_try (fwd w) <= now) /\
  backoff_scenario = ([2; 4; 8], [3]).
Proof.
  split; [|split; [|split]].
  - intros now o w uuids Hi Ho. unfold forwarder_finish. rewrite Hi.
    destruct Ho; subst o; split; reflexivity.
  - intros now w uuids Hi. unfold forwarder_finish. rewrite Hi. split; reflexivity.
  - intros cfg now w Hi Hb.
    destruct (forwarder_begin_fwd cfg now w) as (_ & _ & [Heq | (_ & Hle & _)]).
    + exfalso. apply Hb. rewrite Heq. exact Hi.
    + exact Hle.
  - vm_compute. reflexivity.
Qed.

Lemma forwarder_backoff_witness :
  mysql_fail_count (fwd (forwarder_finish 1001 MySQLErrorRaised w_fetched)) = 1 /\
  next_try (fwd (forwarder_finish 1001 MySQLErrorRaised w_fetched)) = 1003 /\
  next_try (fwd w_produced) <= 1000.
Proof.
  destruct forwarder_backoff as (H1 & _ & H3 & _).
  destruct (H1 1001 MySQLErrorRaised w_fetched ["a"%string] w_fetched_inflight
              (or_introl eq_refl)) as [Ha Hb].
  split; [rewrite Ha; reflexivity|split; [rewrite Hb; reflexivity|]].
  apply (H3 cfg0 1000 w_produced); [reflexivity|discriminate].
Defined.

(** ** Claim C9 *)

(** C9: when the [try] block fails with [sqlite3.OperationalError] (raised
    before [mark_synced] has updated a row), the handler leaves the queue as
    it is: after the whole cycle every row has the [attempts] it had before
    the cycle, and a row can only have become dead through the daily sweep of
    the maintenance step (not run by the handler); the failure counter goes up
    by one and [next_try] becomes [now + min(30, 2^min(counter, 5))]. *)
Theorem sqlite_operational_error_cycle :
  (forall now w uuids, inflight (fwd w) = Some uuids ->
     queue_of (forwarder_finish now SQLiteOperationalError w) = queue_of w /\
     mysql_fail_count (fwd (forwarder_finish now SQLiteOperationalError w))
       = mysql_fail_count (fwd w) + 1 /\
     next_try (fwd (forwarder_finish now SQLiteOperationalError w))
       = now + Z.min 30 (2 ^ Z.min (mysql_fail_count (fwd w) + 1) 5)) /\
  (forall cfg t1 t2 w r',
     In r' (queue_of (forwarder_finish t2 SQLiteOperationalError (forwarder_begin cfg t1 w))) ->
     exists r, In r (queue_of w) /\ reading_uuid r' = reading_uuid r /\
       attempts r' = attempts r /\
       (dead r' = true -> dead r = true \/
          (maintenance_due (fwd w) (utc_date t1) = true /\
           dead_candidate (MAX_SYNC_ATTEMPTS cfg) r = true))).
Proof.
  split.
  - intros now w uuids Hi. unfold forwarder_finish. rewrite Hi.
    split; [|split]; reflexivity.
  - intros cfg t1 t2 w r' Hin. rewrite operational_error_cycle_queue in Hin.
    destruct (maintenance_due (fwd w) (utc_date t1)) eqn:Em.
    + rewrite run_maintenance_eq in Hin.
      destruct (maintenance_raises cfg t1 (queue_of w)).
      { exists r'. split; [exact Hin|]. split; [reflexivity|]. split; [reflexivity|].
        intros Hd. left. exact Hd. }
      apply in_map_iff in Hin as (r & <- & Hr).
      exists r. split; [exact (in_retained _ _ _ _ _ Hr)|].
      split; [apply sweep_row_uuid|]. split; [apply sweep_row_attempts|].
      intros Hd. destruct (sweep_row_dead _ _ Hd) as [H|H]; [left; exact H|right; auto].
    + exists r'. split; [exact Hin|]. split; [reflexivity|]. split; [reflexivity|].
      intros Hd. left. exact Hd.
Qed.

Lemma sqlite_operational_error_cycle_witness :
  queue_of (forwarder_finish 1001 SQLiteOperationalError w_fetched) = [reading "a" 100] /\
  next_try (fwd (forwarder_finish 1001 SQLiteOperationalError w_fetched)) = 1003 /\
  (exists r, In r (queue_of w_produced) /\ reading_uuid (reading "a" 100) = reading_uuid r /\
     attempts (reading "a" 100) = attempts r /\
     (dead (reading "a" 100) = true -> dead r = true \/
        (maintenance_due (fwd w_produced) (utc_date 1000) = true /\
         dead_candidate (MAX_SYNC_ATTEMPTS cfg0) r = true))).
Proof.
  destruct sqlite_operational_error_cycle as [H1 H2].
  destruct (H1 1001 w_fetched ["a"%string] w_fetched_inflight) as (Hq & _ & Hn).
  split; [rewrite Hq; reflexivity|split; [rewrite Hn; reflexivity|]].
  apply (H2 cfg0 1000 1001 w_produced (reading "a" 100)). left. reflexivity.
Defined.

(** A dead row stays dead for as long as it stays in the table. *)
Lemma run_keeping_dead cfg u w w' :
  run_keeping cfg u w w' -> reachable cfg w ->
  forall r, In r (queue_of w) -> reading_uuid r = u -> dead r = true ->
  forall r', In r' (queue_of w') -> reading_uuid r' = u -> dead r' = true.
Proof.
  induction 1 as [w|w1 w2 w3 Hs Hin Hrun IH];
    intros Hr r Hr0 Hu Hd r' Hr' Hu'.
  - destruct (reachable_inv cfg w Hr) as (Hnd & _ & _).
    rewrite (nodup_map_inj reading_uuid _ r' r Hnd Hr' Hr0 (eq_trans Hu' (eq_sym Hu))).
    exact Hd.
  - apply in_map_iff in Hin as (r2 & Hu2 & Hr2).
    destruct (reachable_inv cfg w1 Hr) as (_ & Hst & _).
    destruct (step_sound cfg w1 w2 (reachable_inv cfg w1 Hr) Hs) as [_ Hev].
    destruct (Hev r r2 Hr0 Hr2 (eq_trans Hu2 (eq_sym Hu))) as [Ht _].
    assert (Hd2 : dead r2 = true).
    { specialize (Hst r Hr0). unfold allowed_transition, state_of in Hst, Ht.
      rewrite Hd in Hst, Ht. destruct (synced r); [contradiction Hst; reflexivity|].
      destruct Ht as [Ht|[Ht _]]; [|discriminate].
      destruct (synced r2), (dead r2); cbn in Ht; try discriminate; reflexivity. }
    exact (IH (ReachStep cfg w1 w2 Hr Hs) r2 Hr2 Hu2 Hd2 r' Hr' Hu').
Qed.

Lemma retention_victim_iff c r :
  retention_victim c r = true <->
  ts_epoch_utc r < c /\ (synced r = true \/ dead r = true).
Proof.
  unfold retention_victim. rewrite andb_true_iff, orb_true_iff, Z.ltb_lt. tauto.
Qed.

(** ** Claim C6 *)

(** C6 (as stated, refuted): [mark_dead_if_exceeded] does not return the
    number of rows it promotes; it returns [None] and only logs that number. *)
Lemma mark_dead_if_exceeded_return_counterexample :
  ~ (forall max q, out_return (mark_dead_if_exceeded max q)
                   = PyInt (Z.of_nat (length (filter (dead_candidate max) q)))).
Proof.
  intros H. specialize (H 50 [with_flags (reading "a" 100) false false 50]).
  discriminate H.
Qed.

(** C6 (amended): the sweep sets [dead=1] on exactly the rows with
    [synced=0], [dead=0] and [attempts >= max], leaves every other row (in
    particular a pending row with [attempts = max - 1]) unchanged, logs the
    number of promoted rows when it is not zero and returns [None]; a row
    that is dead in a reachable world stays dead and out of every
    [fetch_unsynced] result for as long as it stays in the table. *)
Theorem mark_dead_if_exceeded_spec :
  (forall max q i r, nth_error q i = Some r ->
     nth_error (out_queue (mark_dead_if_exceeded max q)) i
     = Some (if negb (synced r) && negb (dead r) && (max <=? attempts r)
             then set_dead r else r)) /\
  (forall max q i r, nth_error q i = Some r ->
     synced r = false -> dead r = false -> attempts r = max - 1 ->
     nth_error (out_queue (mark_dead_if_exceeded max q)) i = Some r) /\
  (forall max q,
     out_log (mark_dead_if_exceeded max q)
     = (let n := Z.of_nat (length (filter (fun r => negb (synced r) && negb (dead r)
                                                    && (max <=? attempts r)) q)) in
        if n =? 0 then [] else [LogDeadLetter n max]) /\
     out_return (mark_dead_if_exceeded max q) = PyNone) /\
  (forall cfg w w' r limit r', reachable cfg w -> In r (queue_of w) -> dead r = true ->
     run_keeping cfg (reading_uuid r) w w' ->
     In r' (queue_of w') -> reading_uuid r' = reading_uuid r ->
     dead r' = true /\ ~ In r' (fetch_unsynced (queue_of w') limit)).
Proof.
  assert (Hrow : forall max q i r, nth_error q i = Some r ->
     nth_error (out_queue (mark_dead_if_exceeded max q)) i
     = Some (if negb (synced r) && negb (dead r) && (max <=? attempts r)
             then set_dead r else r)).
  { intros max q i r H. unfold mark_dead_if_exceeded. cbn [out_queue].
    rewrite nth_error_map, H. reflexivity. }
  split; [exact Hrow|split; [|split]].
  - intros max q i r H Hs Hd Ha. rewrite (Hrow max q i r H), Hs, Hd.
    replace (max <=? attempts r) with false by (symmetry; apply Z.leb_gt; lia).
    reflexivity.
  - intros max q. split; reflexivity.
  - intros cfg w w' r limit r' Hr Hin Hd Hrun Hin' Hu.
    assert (Hd' : dead r' = true)
      by exact (run_keeping_dead cfg _ w w' Hrun Hr r Hin eq_refl Hd r' Hin' Hu).
    split; [exact Hd'|]. intros Hf.
    apply in_fetch_unsynced in Hf as [_ Hp]. apply is_pending_flags in Hp as [_ Hp].
    congruence.
Qed.

Lemma w_dead_reachable : reachable cfg_max1 w_dead.
Proof.
  assert (H1 : reachable cfg_max1 w_produced).
  { apply (ReachStep cfg_max1 (mkWorld [] fwd_init)); [constructor|].
    eapply (StepProduce cfg_max1 (mkWorld [] fwd_init) None "raspi-unknown" "DHT11" "4" "a" 100 ""
             None None 0 (Some "Leitura nula do DHT"%string)).
    reflexivity. }
  assert (H2 : reachable cfg_max1 (forwarder_begin cfg_max1 1000 w_produced)).
  { apply (ReachStep cfg_max1 w_produced); [exact H1|]. apply StepBegin; reflexivity. }
  assert (H3 : reachable cfg_max1 (failing_cycle cfg_max1 1000 w_produced)).
  { apply (ReachStep cfg_max1 _ _ H2).
    apply (StepFinish cfg_max1 _ 1000 MySQLErrorRaised ["a"%string]). reflexivity. }
  apply (ReachStep cfg_max1 _ _ H3). apply StepBegin; reflexivity.
Qed.

Lemma mark_dead_if_exceeded_spec_witness :
  nth_error (out_queue (mark_dead_if_exceeded 50 [with_flags (reading "a" 100) false false 49]))
            0%nat
  = Some (with_flags (reading "a" 100) false false 49) /\
  dead (dead_row_a) = true /\ ~ In dead_row_a (fetch_unsynced (queue_of w_dead) 200).
Proof.
  destruct mark_dead_if_exceeded_spec as (_ & H2 & _ & H4).
  split.
  - apply (H2 50 _ 0%nat (with_flags (reading "a" 100) false false 49)); reflexivity.
  - apply (H4 cfg_max1 w_dead w_dead dead_row_a 200 dead_row_a w_dead_reachable).
    + vm_compute. left. reflexivity.
    + reflexivity.
    + apply KeepDone.
    + vm_compute. left. reflexivity.
    + reflexivity.
Defined.

(** ** Claim C7 *)

(** C7 (as stated, refuted): [retention_cleanup] returns [None], not the
    number of deleted rows; with [ENABLE_RETENTION] off it deletes nothing,
    not even a synced row older than the cutoff; and with a
    [RETENTION_DAYS] that puts the cutoff outside the range of [datetime]
    (here 1000000 days) it deletes nothing and raises [OverflowError]. *)
Lemma retention_cleanup_counterexample :
  let old := with_flags (reading "a" 100) true false 1 in
  let now := 100 + 91 * 86400 in
  retention_cutoff now 90 = Some (100 + 86400) /\
  ts_epoch_utc old < 100 + 86400 /\
  out_return (retention_cleanup true 90 now [old]) <> PyInt 1 /\
  In old (out_queue (retention_cleanup false 90 now [old])) /\
  out_return (retention_cleanup true 1000000 now [old]) = PyRaised OverflowError /\
  In old (out_queue (retention_cleanup true 1000000 now [old])).
Proof.
  cbv zeta. split; [vm_compute; reflexivity|].
  split; [vm_compute; reflexivity|split; [discriminate|split; [left; reflexivity|]]].
  split; [vm_compute; reflexivity|vm_compute; left; reflexivity].
Qed.

(** C7 (amended): the cutoff [now - RETENTION_DAYS * 86400] exists exactly
    when [|RETENTION_DAYS| <= 999999999] and it lies within the range of
    [datetime] (years 1 to 9999); otherwise, with [ENABLE_RETENTION] on,
    [retention_cleanup] raises [OverflowError] and deletes nothing (e.g.
    [RETENTION_DAYS = 1000000]).  With [ENABLE_RETENTION] on and a cutoff
    [c], it keeps a row iff it is not the case that its [ts_epoch_utc] is
    below [c] and it has [synced=1] or [dead=1], logs the number deleted
    when not zero and returns [None]; with [ENABLE_RETENTION] off the table
    is unchanged and it returns [None]; it never deletes a row, and never
    one with [synced=0] and [dead=0]. *)
Theorem retention_cleanup_spec :
  (forall now days,
     retention_cutoff now days = Some (now - days * 86400) <->
     Z.abs days <= 999999999 /\
     -62135596800 <= now - days * 86400 <= 253402300799) /\
  (forall now days c, retention_cutoff now days = Some c -> c = now - days * 86400) /\
  (forall days now c q r, retention_cutoff now days = Some c -> In r q ->
     (In r (out_queue (retention_cleanup true days now q)) <->
      ~ (ts_epoch_utc r < c /\ (synced r = true \/ dead r = true)))) /\
  (forall days now c q, retention_cutoff now days = Some c ->
     out_return (retention_cleanup true days now q) = PyNone /\
     out_log (retention_cleanup true days now q)
     = (let n := Z.of_nat (length (filter (retention_victim c) q)) in
        if n =? 0 then [] else [LogRetention n c])) /\
  (forall days now q, retention_cutoff now days = None ->
     out_return (retention_cleanup true days now q) = PyRaised OverflowError /\
     out_queue (retention_cleanup true days now q) = q /\
     out_log (retention_cleanup true days now q) = []) /\
  (forall days now q,
     out_return (retention_cleanup false days now q) = PyNone /\
     out_log (retention_cleanup false days now q) = [] /\
     out_queue (retention_cleanup false days now q) = q) /\
  (forall en days now q r, In r (out_queue (retention_cleanup en days now q)) -> In r q) /\
  (forall en days now q r, In r q -> synced r = false -> dead r = false ->
     In r (out_queue (retention_cleanup en days now q))) /\
  retention_cutoff (100 + 91 * 86400) 1000000 = None.
Proof.
  split; [|split; [|split; [|split; [|split; [|split; [|split; [|split]]]]]]].
  - intros now days. unfold retention_cutoff, timedelta_max_days,
      datetime_min_epoch, datetime_max_epoch.
    destruct (999999999 <? Z.abs days) eqn:E1.
    + apply Z.ltb_lt in E1. split; [discriminate|lia].
    + apply Z.ltb_ge in E1. cbv zeta.
      destruct ((-62135596800 <=? now - days * 86400)
                && (now - days * 86400 <=? 253402300799)) eqn:E2.
      * apply andb_true_iff in E2 as [E2 E3]. apply Z.leb_le in E2, E3.
        split; [intros _; lia|reflexivity].
      * split; [discriminate|]. intros (_ & H2 & H3).
        apply Z.leb_le in H2, H3. rewrite H2, H3 in E2. discriminate.
  - intros now days c. unfold retention_cutoff.
    destruct (timedelta_max_days <? Z.abs days); [discriminate|]. cbv zeta.
    destruct (_ && _); [|discriminate]. intros H. injection H. auto.
  - intros days now c q r Hc Hin. rewrite retained_queue_eq, Hc, filter_In, negb_true_iff.
    rewrite <- retention_victim_iff.
    destruct (retention_victim c r); intuition congruence.
  - intros days now c q Hc. unfold retention_cleanup. cbn [negb]. rewrite Hc.
    split; reflexivity.
  - intros days now q Hc. unfold retention_cleanup. cbn [negb]. rewrite Hc.
    split; [|split]; reflexivity.
  - intros days now q. split; [|split]; reflexivity.
  - intros en days now q r H. exact (in_retained r en days now q H).
  - intros en days now q r Hin Hs Hd. rewrite retained_queue_eq. destruct en; [|exact Hin].
    destruct (retention_cutoff now days) as [c|]; [|exact Hin].
    apply filter_In. split; [exact Hin|].
    unfold retention_victim. rewrite Hs, Hd, andb_false_r. reflexivity.
  - vm_compute. reflexivity.
Qed.

Lemma retention_cleanup_spec_witness :
  In (reading "a" 100)
     (out_queue (retention_cleanup true 90 (100 + 91 * 86400) [reading "a" 100])) /\
  out_return (retention_cleanup true 1000000 (100 + 91 * 86400) [reading "a" 100])
    = PyRaised OverflowError /\
  out_return (retention_cleanup true 90 (100 + 91 * 86400) [reading "a" 100]) = PyNone.
Proof.
  destruct retention_cleanup_spec as (_ & _ & _ & H4 & H5 & _ & _ & H8 & _).
  split; [apply (H8 true 90 (100 + 91 * 86400) [reading "a" 100]); [left|..]; reflexivity|].
  split; [apply (H5 1000000 (100 + 91 * 86400) [reading "a" 100]); vm_compute; reflexivity|].
  apply (H4 90 (100 + 91 * 86400) (100 + 86400) [reading "a" 100]). vm_compute. reflexivity.
Defined.

(** * Further properties of the code *)

(** ** [push_with_split]: what a call writes *)

Lemma written_single {A E} (l : list A) :
  written [(l, @None E)] = l.
Proof. unfold written. simpl. apply app_nil_r. Qed.

Lemma firstn_skipn_mid_lengths {X} (l : list X) :
  (2 <= length l)%nat ->
  (length (firstn (length l / 2) l) < length l)%nat /\
  (length (skipn (length l / 2) l) < length l)%nat.
Proof.
  intros H. rewrite length_firstn, length_skipn.
  assert (1 <= length l / 2)%nat by (apply Nat.div_le_lower_bound; lia).
  pose proof (Nat.div_lt (length l) 2 ltac:(lia) ltac:(lia)). lia.
Qed.

Lemma push_with_split_prefix_aux {A E} (push : list A -> option E) n :
  forall batch, (length batch <= n)%nat ->
  (exists rest, batch = written (fst (push_with_split push batch)) ++ rest) /\
  (snd (push_with_split push batch) = None <->
   written (fst (push_with_split push batch)) = batch) /\
  (forall e, snd (push_with_split push batch) = Some e ->
     exists pre b rest,
       batch = written (fst (push_with_split push batch)) ++ b :: rest /\
       fst (push_with_split push batch) = pre ++ [([b], Some e)]).
Proof.
  induction n as [|n IH]; intros batch Hlen.
  - destruct batch; [|simpl in Hlen; lia].
    rewrite push_with_split_eq. simpl.
    split; [exists []; reflexivity|split; [tauto|discriminate]].
  - destruct (Nat.le_gt_cases (length batch) 1) as [Hle|Hgt].
    + destruct batch as [|a [|a' t]]; [|
      |simpl in Hle; lia].
      * rewrite push_with_split_eq. simpl.
        split; [exists []; reflexivity|split; [tauto|discriminate]].
      * rewrite push_with_split_eq. destruct (push [a]) as [e|] eqn:Hp.
        -- simpl. split; [exists [a]; reflexivity|split].
           ++ split; [discriminate|intros H; discriminate H].
           ++ intros e' He'. injection He' as <-.
              exists [], a, []. split; reflexivity.
        -- simpl. split; [exists []; reflexivity|split; [tauto|discriminate]].
    + destruct (push batch) as [e|] eqn:Hp.
      2:{ rewrite push_with_split_eq. destruct batch as [|a t]; [simpl in Hgt; lia|].
          rewrite Hp. cbn [fst snd]. rewrite written_single.
          split; [exists []; symmetry; apply app_nil_r|split; [tauto|discriminate]]. }
      rewrite (push_with_split_split push batch e) by first [exact Hp | lia].
      cbv zeta.
      destruct (firstn_skipn_mid_lengths batch ltac:(lia)) as [L1 L2].
      set (mid := (length batch / 2)%nat) in *.
      destruct (IH (firstn mid batch) ltac:(lia)) as (P1 & N1 & S1).
      destruct (push_with_split push (firstn mid batch)) as [c1 r1] eqn:H1.
      cbn [fst snd] in P1, N1, S1.
      destruct r1 as [e1|].
      * cbn [fst snd]. rewrite written_cons_fail.
        destruct (S1 e1 eq_refl) as (pre & b & rest & Hb & Hc).
        split; [|split].
        -- exists (b :: rest ++ skipn mid batch).
           rewrite <- (firstn_skipn mid batch) at 1. rewrite Hb, <- app_assoc. reflexivity.
        -- split; [discriminate|]. intros Hw. exfalso.
           assert (Hl : length (firstn mid batch) = (length (written c1) + S (length rest))%nat)
             by (rewrite Hb, length_app; reflexivity).
           rewrite Hw in Hl. lia.
        -- intros e' He'. injection He' as <-.
           exists ((batch, Some e) :: pre), b, (rest ++ skipn mid batch). split.
           ++ rewrite <- (firstn_skipn mid batch) at 1. rewrite Hb, <- app_assoc. reflexivity.
           ++ rewrite Hc. reflexivity.
      * assert (Hw1 : written c1 = firstn mid batch) by (apply N1; reflexivity).
        destruct (IH (skipn mid batch) ltac:(lia)) as (P2 & N2 & S2).
        destruct (push_with_split push (skipn mid batch)) as [c2 r2] eqn:H2.
        cbn [fst snd] in P2, N2, S2 |- *. unfold bulk_call in *.
        rewrite written_cons_fail, written_app, Hw1.
        split; [|split].
        -- destruct P2 as [rest Hr]. exists rest.
           rewrite <- (firstn_skipn mid batch) at 1. rewrite Hr at 1.
           rewrite app_assoc. reflexivity.
        -- rewrite N2. split.
           ++ intros Hw2. rewrite Hw2. apply firstn_skipn.
           ++ intros Hw. rewrite <- (firstn_skipn mid batch) in Hw at 2.
              apply app_inv_head in Hw. exact Hw.
        -- intros e' He'. destruct (S2 e' He') as (pre & b & rest & Hb & Hc).
           exists ((batch, Some e) :: c1 ++ pre), b, rest. split.
           ++ rewrite <- (firstn_skipn mid batch) at 1. rewrite Hb, app_assoc. reflexivity.
           ++ rewrite Hc, app_assoc. reflexivity.
Qed.

Lemma log2_half n : (2 <= n)%nat -> Nat.log2 n = S (Nat.log2 (n / 2)).
Proof.
  intros Hn.
  pose proof (Nat.div_mod n 2 ltac:(lia)) as Hdm.
  pose proof (Nat.mod_upper_bound n 2 ltac:(lia)) as Hmb.
  assert (Hpos : (0 < n / 2)%nat) by (apply Nat.div_str_pos; lia).
  destruct (n mod 2)%nat as [|[|k]] eqn:Em; [| |lia].
  - rewrite Hdm at 1. rewrite Nat.add_0_r. apply Nat.log2_double. exact Hpos.
  - rewrite Hdm at 1. apply Nat.log2_succ_double. exact Hpos.
Qed.

Lemma push_with_split_all_fail_aux {A E} (push : list A -> option E) :
  (forall l, l <> [] -> push l <> None) ->
  forall n a t, (length (a :: t) <= n)%nat ->
  length (fst (push_with_split push (a :: t))) = S (Nat.log2 (length (a :: t))) /\
  written (fst (push_with_split push (a :: t))) = [] /\
  snd (push_with_split push (a :: t)) = push [a].
Proof.
  intros Hfail n. induction n as [|n IH]; intros a t Hlen; [simpl in Hlen; lia|].
  destruct (push (a :: t)) as [e|] eqn:Hp; [|exfalso; apply (Hfail (a :: t)); congruence].
  destruct t as [|a' t'].
  - rewrite (push_with_split_single push a e Hp). simpl. rewrite Hp. auto.
  - rewrite (push_with_split_split push (a :: a' :: t') e) by (simpl; lia || exact Hp).
    cbv zeta.
    set (mid := (length (a :: a' :: t') / 2)%nat).
    assert (Hmid : (1 <= mid)%nat) by (apply Nat.div_le_lower_bound; simpl; lia).
    destruct (firstn_skipn_mid_lengths (a :: a' :: t') ltac:(simpl; lia)) as [L1 _].
    fold mid in L1.
    destruct mid as [|m] eqn:Em; [lia|].
    cbn [firstn] in L1 |- *.
    destruct (IH a (firstn m (a' :: t')) ltac:(simpl in *; lia)) as (Hl & Hw & Hs).
    destruct (push_with_split push (a :: firstn m (a' :: t'))) as [c1 r1].
    cbn [fst snd] in Hl, Hw, Hs. subst r1.
    destruct (push [a]) as [e1|] eqn:Ha; [|exfalso; apply (Hfail [a]); congruence].
    cbn [fst snd]. unfold bulk_call in *. rewrite written_cons_fail, Hw.
    split; [|split; reflexivity].
    cbn [length]. rewrite Hl. f_equal.
    rewrite (log2_half (S (S (length t')))) by lia.
    f_equal. f_equal.
    assert (Hm : (S (S (length t')) / 2 = S m)%nat) by (rewrite <- Em; reflexivity).
    rewrite Hm. cbn [length]. rewrite length_firstn. cbn [length].
    pose proof (Nat.div_lt (S (S (length t'))) 2 ltac:(lia) ltac:(lia)). lia.
Qed.

(** [push_with_split] writes a prefix of the batch, in order, each record
    once; it returns normally iff that prefix is the whole batch; when it
    raises, the last bulk write was the one-record write of the record right
    after the prefix, and its error is the one raised. *)
Theorem push_with_split_writes_prefix {A E} (push : list A -> option E) (batch : list A) :
  (exists rest, batch = written (fst (push_with_split push batch)) ++ rest) /\
  (snd (push_with_split push batch) = None <->
   written (fst (push_with_split push batch)) = batch) /\
  (forall e, snd (push_with_split push batch) = Some e ->
     exists pre b rest,
       batch = written (fst (push_with_split push batch)) ++ b :: rest /\
       fst (push_with_split push batch) = pre ++ [([b], Some e)]).
Proof. exact (push_with_split_prefix_aux push (length batch) batch (le_n _)). Qed.

Lemma push_with_split_writes_prefix_witness :
  exists pre b rest,
    [0; 1]%nat = written (fst (push_with_split reject_zero [0; 1]%nat)) ++ b :: rest /\
    fst (push_with_split reject_zero [0; 1]%nat)
    = pre ++ [([b], Some "Data truncated for column"%string)].
Proof.
  apply (proj2 (proj2 (push_with_split_writes_prefix reject_zero [0; 1]%nat))).
  reflexivity.
Defined.

(** When every bulk write fails, [push_with_split] on a batch of N >= 1
    records makes exactly floor(log2 N) + 1 bulk writes (the batch, its first
    half, the first half of that, ...), writes nothing, and raises the error
    of the one-record write of the batch's first record. *)
Theorem push_with_split_all_rejected {A E} (push : list A -> option E) (a : A) (t : list A) :
  (forall l, l <> [] -> push l <> None) ->
  length (fst (push_with_split push (a :: t))) = S (Nat.log2 (length (a :: t))) /\
  written (fst (push_with_split push (a :: t))) = [] /\
  snd (push_with_split push (a :: t)) = push [a].
Proof. intros H. exact (push_with_split_all_fail_aux push H _ a t (le_n _)). Qed.

Lemma push_with_split_all_rejected_witness :
  length (fst (push_with_split (fun _ : list nat => Some "Lost connection"%string)
                 [1; 2; 3; 4; 5]%nat)) = 3%nat.
Proof.
  destruct (push_with_split_all_rejected (fun _ : list nat => Some "Lost connection"%string)
              1%nat [2; 3; 4; 5]%nat) as [H _].
  - intros l _. discriminate.
  - rewrite H. reflexivity.
Defined.

(** ** The forwarder loop: what one step does to a row *)

Lemma in_forwarder_begin_queue cfg now w r :
  In r (queue_of (forwarder_begin cfg now w)) ->
  exists r0, In r0 (queue_of w) /\ (r = r0 \/ r = sweep_row (MAX_SYNC_ATTEMPTS cfg) r0).
Proof.
  rewrite forwarder_begin_queue. destruct (maintenance_due (fwd w) (utc_date now)).
  - rewrite run_maintenance_eq.
    destruct (maintenance_raises cfg now (queue_of w)); [intros H; exists r; auto|].
    intros H. apply in_map_iff in H as (r0 & <- & H).
    exists r0. split; [exact (in_retained _ _ _ _ _ H)|right; reflexivity].
  - intros H. exists r. auto.
Qed.

Lemma in_forwarder_finish_queue now o w r :
  In r (queue_of (forwarder_finish now o w)) ->
  exists r0 k, In r0 (queue_of w) /\
    (r = Nat.iter k (set_synced now) r0 \/ r = Nat.iter k (set_attempt_failed now) r0).
Proof.
  unfold forwarder_finish. destruct (inflight (fwd w)) as [uuids|].
  2:{ intros H. exists r, O. auto. }
  destruct o; cbn [queue_of];
    [rewrite mark_synced_map|rewrite mark_attempt_failed_map| |rewrite mark_attempt_failed_map];
    intros H; try (apply in_map_iff in H as (r0 & <- & H)).
  - exists r0, (count_occ string_dec uuids (reading_uuid r0)). auto.
  - exists r0, (count_occ string_dec uuids (reading_uuid r0)). auto.
  - exists r, O. auto.
  - exists r0, (count_occ string_dec uuids (reading_uuid r0)). auto.
Qed.

(** A property of rows that holds for a freshly inserted row and is kept by
    the sweep and by the two marking updates holds for every row of every
    reachable table. *)
Lemma reachable_rows cfg (P : row -> Prop) :
  (forall u dk st sp ep ts t h okv err,
     P (mkRow u dk st sp ep ts t h okv err false false 0 None)) ->
  (forall r, P r -> P (sweep_row (MAX_SYNC_ATTEMPTS cfg) r)) ->
  (forall now r, P r -> P (set_synced now r)) ->
  (forall now r, P r -> P (set_attempt_failed now r)) ->
  forall w, reachable cfg w -> forall r, In r (queue_of w) -> P r.
Proof.
  intros Hnew Hsweep Hsync Hfail w Hr.
  induction Hr as [|w w' Hr IH Hs]; [intros r []|].
  destruct Hs as [w store dk st sp u ep ts t h okv err q' e Hins| w now _ _| w now o uuids _| w].
  - apply insert_queue_cases in Hins as [->|[_ ->]]; [exact IH|]. intros r H.
    apply in_app_or in H as [H|[<-|[]]]; [exact (IH r H)|apply Hnew].
  - intros r H. apply in_forwarder_begin_queue in H as (r0 & H0 & [->| ->]);
      [exact (IH r0 H0)|apply Hsweep; exact (IH r0 H0)].
  - intros r H. apply in_forwarder_finish_queue in H as (r0 & k & H0 & [->| ->]);
      specialize (IH r0 H0); induction k as [|k IHk]; simpl; auto.
  - exact IH.
Qed.




(** With [mysql_ready] false (MySQL disabled or its configuration
    incomplete) the forwarder never fetches a batch: in every reachable
    world nothing is in flight and every row is unsynced with [attempts=0]
    and no [last_attempt_utc]; only the daily maintenance touches the
    table. *)
Theorem forwarder_mysql_not_ready cfg w :
  mysql_ready cfg = false -> reachable cfg w ->
  inflight (fwd w) = None /\
  (forall r, In r (queue_of w) ->
     synced r = false /\ attempts r = 0 /\ last_attempt_utc r = None).
Proof.
  intros Hoff Hr.
  induction Hr as [|w w' Hr IH Hs]; [split; [reflexivity|intros r []]|].
  destruct IH as [Hnone Hrows].
  destruct Hs as [w store dk st sp u ep ts t h okv err q' e Hins| w now _ _| w now o uuids Hsome| w].
  - apply insert_queue_cases in Hins as [->|[_ ->]]; [split; [exact Hnone|exact Hrows]|].
    split; [exact Hnone|].
    intros r H. apply in_app_or in H as [H|[<-|[]]]; [exact (Hrows r H)|auto].
  - split.
    + destruct (forwarder_begin_fwd cfg now w) as (_ & _ & [Hif|(Hon & _)]);
        [rewrite Hif; exact Hnone|congruence].
    + intros r H. apply in_forwarder_begin_queue in H as (r0 & H0 & [->| ->]);
        [exact (Hrows r0 H0)|].
      destruct (Hrows r0 H0) as (Hs0 & Ha0 & Hl0).
      unfold sweep_row. destruct (dead_candidate (MAX_SYNC_ATTEMPTS cfg) r0); auto.
  - congruence.
  - split; [reflexivity|exact Hrows].
Qed.

Lemma forwarder_mysql_not_ready_witness :
  inflight (fwd (forwarder_begin (mkConfig 200 50 true 90 false) 1000 w_produced)) = None.
Proof.
  refine (proj1 (forwarder_mysql_not_ready (mkConfig 200 50 true 90 false) _ eq_refl _)).
  apply (ReachStep _ w_produced).
  - apply (ReachStep _ (mkWorld [] fwd_init)); [constructor|].
    eapply (StepProduce _ (mkWorld [] fwd_init) None "raspi-unknown" "DHT11" "4" "a" 100 ""
             None None 0 (Some "Leitura nula do DHT"%string)).
    reflexivity.
  - apply StepBegin; reflexivity.
Defined.

(** A row is dead-lettered only after at least [MAX_SYNC_ATTEMPTS] delivery
    attempts: in every reachable table a row with [dead=1] has
    [attempts >= MAX_SYNC_ATTEMPTS]. *)
Theorem dead_rows_reached_max_attempts cfg w :
  reachable cfg w ->
  forall r, In r (queue_of w) -> dead r = true -> MAX_SYNC_ATTEMPTS cfg <= attempts r.
Proof.
  intros Hr.
  apply (reachable_rows cfg (fun r => (dead r = true -> MAX_SYNC_ATTEMPTS cfg <= attempts r)
                                      /\ 0 <= attempts r)); [| | | |exact Hr].
  - intros. cbn. split; [discriminate|lia].
  - intros r [Hd Ha]. unfold sweep_row, dead_candidate.
    destruct (is_pending r && (MAX_SYNC_ATTEMPTS cfg <=? attempts r)) eqn:E.
    + apply andb_true_iff in E as [_ E]. apply Z.leb_le in E.
      unfold set_dead. cbn. split; [intros _; exact E|exact Ha].
    + split; assumption.
  - intros now r [Hd Ha]. unfold set_synced. cbn. split; [intros H; specialize (Hd H)|]; lia.
  - intros now r [Hd Ha]. unfold set_attempt_failed. cbn.
    split; [intros H; specialize (Hd H)|]; lia.
Qed.

Lemma dead_rows_reached_max_attempts_witness :
  MAX_SYNC_ATTEMPTS cfg_max1 <= attempts dead_row_a.
Proof.
  apply (dead_rows_reached_max_attempts cfg_max1 w_dead w_dead_reachable).
  - vm_compute. left. reflexivity.
  - reflexivity.
Defined.

(** Attempt bookkeeping: in every reachable table [attempts >= 0],
    [attempts = 0] exactly when [last_attempt_utc] is empty, and a synced
    row has [attempts >= 1]. *)
Theorem attempts_bookkeeping cfg w :
  reachable cfg w ->
  forall r, In r (queue_of w) ->
    0 <= attempts r /\ (attempts r = 0 <-> last_attempt_utc r = None) /\
    (synced r = true -> 1 <= attempts r).
Proof.
  intros Hr.
  apply (reachable_rows cfg _); [| | | |exact Hr].
  - intros. cbn. split; [lia|split; [tauto|discriminate]].
  - intros r H. unfold sweep_row. destruct (dead_candidate (MAX_SYNC_ATTEMPTS cfg) r);
      [exact H|exact H].
  - intros now r (Ha & Hl & Hs). unfold set_synced. cbn.
    split; [lia|split; [split; [lia|discriminate]|lia]].
  - intros now r (Ha & Hl & Hs). unfold set_attempt_failed. cbn.
    split; [lia|split; [split; [lia|discriminate]|intros H; specialize (Hs H); lia]].
Qed.

Lemma attempts_bookkeeping_witness :
  1 <= attempts (attempt_row (reading "a" 100) true 1 1001).
Proof.
  assert (Hr : reachable cfg0 w_synced).
  { apply (ReachStep cfg0 w_fetched); [exact w_fetched_reachable|].
    apply (StepFinish cfg0 w_fetched 1001 Delivered ["a"%string]). reflexivity. }
  apply (attempts_bookkeeping cfg0 w_synced Hr); [left; reflexivity|reflexivity].
Defined.

(** ** collector.py: the loop of [main] *)

Lemma insert_queue_fresh dk st sp u ep ts t h okv err q :
  ~ In u (map reading_uuid q) ->
  insert_queue None dk st sp u ep ts t h okv err q
  = (q ++ [mkRow u dk st sp ep ts t h okv err false false 0 None],
     if okv =? 0 then None
     else match t, h with Some _, Some _ => None | _, _ => Some TypeError end).
Proof.
  intros Hf. unfold insert_queue.
  destruct (existsb (String.eqb u) (map reading_uuid q)) eqn:Ex.
  - apply existsb_exists in Ex as (x & Hx & Hu). apply String.eqb_eq in Hu. subst x.
    contradiction.
  - cbv zeta. destruct (okv =? 0); [reflexivity|]. destruct t, h; reflexivity.
Qed.

Lemma insert_queue_dup store dk st sp u ep ts t h okv err q :
  In u (map reading_uuid q) ->
  insert_queue store dk st sp u ep ts t h okv err q
  = (q, Some (match store with Some m => OperationalError m | None => IntegrityError end)).
Proof.
  intros Hin. unfold insert_queue. destruct store as [m|]; [reflexivity|].
  replace (existsb (String.eqb u) (map reading_uuid q)) with true; [reflexivity|].
  symmetry. apply existsb_exists. exists u. split; [exact Hin|apply String.eqb_refl].
Qed.

Lemma insert_queue_locked m dk st sp u ep ts t h okv err q :
  insert_queue (Some m) dk st sp u ep ts t h okv err q = (q, Some (OperationalError m)).
Proof. reflexivity. Qed.

Lemma collector_iteration_dup DK ST SP MAX store1 store2 rid epoch ts rd s :
  In rid (map reading_uuid (c_queue s)) ->
  collector_iteration DK ST SP MAX store1 store2 rid epoch ts rd s = None.
Proof.
  intros Hin. unfold collector_iteration. cbv beta zeta.
  destruct rd as [[t|] [h|]|msg|msg]; rewrite !insert_queue_dup by exact Hin;
    cbv beta iota; rewrite ?insert_queue_dup by exact Hin; reflexivity.
Qed.

Lemma collector_iteration_locked_values DK ST SP MAX m rid epoch ts tv hv s :
  ~ In rid (map reading_uuid (c_queue s)) ->
  exists s' reset,
    collector_iteration DK ST SP MAX (Some m) None rid epoch ts (DhtValues tv hv) s
      = Some (s', reset) /\
    c_queue s' = c_queue s ++ [mkRow rid DK ST SP epoch ts None None 0
                                 (Some ("Erro inesperado: " ++ m)%string) false false 0 None] /\
    let c1 := match tv, hv with Some _, Some _ => 1 | _, _ => consecutive_errors s + 2 end in
    reset = (MAX <=? c1) /\ consecutive_errors s' = (if MAX <=? c1 then 0 else c1).
Proof.
  intros Hf. unfold collector_iteration. cbv beta zeta.
  destruct tv as [t|], hv as [h|]; rewrite insert_queue_locked; cbv beta iota;
    rewrite insert_queue_fresh by exact Hf; cbn [Z.eqb insert_error_str];
    try replace (0 + 1) with 1 by lia;
    try replace (consecutive_errors s + 1 + 1) with (consecutive_errors s + 2) by lia;
    match goal with |- context [if MAX <=? ?c then _ else _] => destruct (MAX <=? c) eqn:Ec end;
    (eexists; eexists; split; [reflexivity|]); cbn;
    (split; [reflexivity|]); rewrite ?Ec; (split; reflexivity).
Qed.

Lemma collector_iteration_counter DK ST SP MAX store2 rid epoch ts rd s s' reset :
  collector_iteration DK ST SP MAX None store2 rid epoch ts rd s = Some (s', reset) ->
  let c1 := match rd with
            | DhtValues (Some _) (Some _) => 0
            | _ => consecutive_errors s + 1
            end in
  reset = (MAX <=? c1) /\ consecutive_errors s' = (if MAX <=? c1 then 0 else c1).
Proof.
  destruct (in_dec string_dec rid (map reading_uuid (c_queue s))) as [Hin|Hf].
  { rewrite collector_iteration_dup by exact Hin. discriminate. }
  unfold collector_iteration. cbv beta zeta.
  destruct rd as [[t|] [h|]|msg|msg]; rewrite !insert_queue_fresh by exact Hf;
    cbn [Z.eqb]; cbv beta iota;
    match goal with |- context [MAX <=? ?c] => destruct (MAX <=? c) eqn:Ec end;
    intros H; injection H as <- <-; cbn; rewrite ?Ec; split; reflexivity.
Qed.

Lemma collector_iteration_counter_any DK ST SP MAX store1 store2 rid epoch ts rd s s' reset :
  collector_iteration DK ST SP MAX store1 store2 rid epoch ts rd s = Some (s', reset) ->
  exists c1, (c1 = 0 \/ c1 = 1 \/ c1 = consecutive_errors s + 1 \/ c1 = consecutive_errors s + 2) /\
    reset = (MAX <=? c1) /\ consecutive_errors s' = (if MAX <=? c1 then 0 else c1).
Proof.
  unfold collector_iteration. cbv beta zeta. intros H.
  destruct rd as [[t|] [h|]|msg|msg];
  repeat (match type of H with
          | context [insert_queue ?a ?b ?c ?d ?e ?f ?g ?i ?j ?k ?l ?m] =>
              destruct (insert_queue a b c d e f g i j k l m) as [?q [?e|]]
          end; cbv beta iota in H);
  try discriminate H;
  match type of H with context [MAX <=? ?c] => exists c; destruct (MAX <=? c) eqn:Ec end;
  injection H as <- <-; cbn; rewrite ?Ec;
  (split; [lia|split; reflexivity]).
Qed.

(** Every iteration of the collector with a fresh uuid and a store that
    accepts its first insert appends exactly one pending row ([synced=0],
    [dead=0], [attempts=0]) with that uuid, the collector's device, sensor
    and pin, and the timestamp of the iteration; the row has [ok=1] and
    both values exactly when both reads gave a value, and otherwise [ok=0],
    no values and an error message.  When the store raises
    [sqlite3.OperationalError] (message [m]) on the insert of the [try]
    block, the [except Exception] handler stores instead an error row with
    [ok=0] and the message ["Erro inesperado: " ++ m], also for a good
    read.  When the insert of a handler raises, the exception leaves
    [main]: for a read that raised and a store that refuses, for a store
    that refuses both inserts, and for a uuid already in the table. *)
Theorem collector_iteration_appends_one_row DK ST SP MAX rid epoch ts rd s :
  (forall store2, ~ In rid (map reading_uuid (c_queue s)) ->
   exists row s' reset,
     collector_iteration DK ST SP MAX None store2 rid epoch ts rd s = Some (s', reset) /\
     c_queue s' = c_queue s ++ [row] /\
     row = mkRow rid DK ST SP epoch ts (temperature_c row) (humidity_pct row)
                 (ok row) (error_msg row) false false 0 None /\
     ((exists t h, rd = DhtValues (Some t) (Some h) /\ ok row = 1 /\
        temperature_c row = Some t /\ humidity_pct row = Some h /\ error_msg row = None) \/
      ((forall t h, rd <> DhtValues (Some t) (Some h)) /\ ok row = 0 /\
        temperature_c row = None /\ humidity_pct row = None /\ error_msg row <> None))) /\
  (forall m tv hv, ~ In rid (map reading_uuid (c_queue s)) -> rd = DhtValues tv hv ->
   exists s' reset,
     collector_iteration DK ST SP MAX (Some m) None rid epoch ts rd s = Some (s', reset) /\
     c_queue s' = c_queue s ++ [mkRow rid DK ST SP epoch ts None None 0
                                  (Some ("Erro inesperado: " ++ m)%string) false false 0 None]) /\
  (forall m store2, (forall tv hv, rd <> DhtValues tv hv) ->
     collector_iteration DK ST SP MAX (Some m) store2 rid epoch ts rd s = None) /\
  (forall m m', collector_iteration DK ST SP MAX (Some m) (Some m') rid epoch ts rd s = None) /\
  (forall store1 store2, In rid (map reading_uuid (c_queue s)) ->
     collector_iteration DK ST SP MAX store1 store2 rid epoch ts rd s = None).
Proof.
  split; [|split; [|split; [|split]]].
  - intros store2 Hf. unfold collector_iteration. cbv beta zeta.
    destruct rd as [[t|] [h|]|msg|msg]; rewrite !insert_queue_fresh by exact Hf;
      cbn [Z.eqb]; cbv beta iota;
      match goal with |- context [if ?b then _ else _] => destruct b end;
      eexists; eexists; eexists;
      (split; [reflexivity|]); (split; [reflexivity|]); (split; [reflexivity|]); cbn;
      first [ left; eexists; eexists; split; [reflexivity|auto]
            | right; split; [intros t' h' H; discriminate H|repeat split; discriminate] ].
  - intros m tv hv Hf ->.
    destruct (collector_iteration_locked_values DK ST SP MAX m rid epoch ts tv hv s Hf)
      as (s' & reset & E & Q & _).
    exists s', reset. split; [exact E|exact Q].
  - intros m store2 Hn. unfold collector_iteration. cbv beta zeta.
    destruct rd as [tv hv|msg|msg]; [exfalso; exact (Hn tv hv eq_refl)|reflexivity|reflexivity].
  - intros m m'. unfold collector_iteration. cbv beta zeta.
    destruct rd as [[t|] [h|]|msg|msg]; reflexivity.
  - intros store1 store2 Hin. apply collector_iteration_dup. exact Hin.
Qed.

Lemma collector_iteration_witness :
  (exists row s' reset,
    collector_iteration "raspi-unknown" "DHT11" "GPIO4" 10 None None "r1" 100 "1970-01-01 00:01:40"
      (DhtValues None (Some (Qmake 55 1))) (mkCollector [] 0) = Some (s', reset) /\
    c_queue s' = [] ++ [row] /\
    row = mkRow "r1" "raspi-unknown" "DHT11" "GPIO4" 100 "1970-01-01 00:01:40"
                (temperature_c row) (humidity_pct row) (ok row) (error_msg row)
                false false 0 None /\
    ((exists t h, DhtValues None (Some (Qmake 55 1)) = DhtValues (Some t) (Some h) /\ ok row = 1 /\
        temperature_c row = Some t /\ humidity_pct row = Some h /\ error_msg row = None) \/
     ((forall t h, DhtValues None (Some (Qmake 55 1)) <> DhtValues (Some t) (Some h)) /\ ok row = 0 /\
        temperature_c row = None /\ humidity_pct row = None /\ error_msg row <> None))) /\
  (exists s' reset,
    collector_iteration "raspi-unknown" "DHT11" "GPIO4" 10 (Some "database is locked"%string) None
      "r1" 100 "1970-01-01 00:01:40"
      (DhtValues (Some (Qmake 21 1)) (Some (Qmake 55 1))) (mkCollector [] 0) = Some (s', reset) /\
    c_queue s' = [] ++ [mkRow "r1" "raspi-unknown" "DHT11" "GPIO4" 100 "1970-01-01 00:01:40"
                          None None 0 (Some ("Erro inesperado: " ++ "database is locked")%string)
                          false false 0 None]).
Proof.
  destruct (collector_iteration_appends_one_row "raspi-unknown" "DHT11" "GPIO4" 10 "r1"
              100 "1970-01-01 00:01:40" (DhtValues None (Some (Qmake 55 1))) (mkCollector [] 0))
    as (H1 & _).
  destruct (collector_iteration_appends_one_row "raspi-unknown" "DHT11" "GPIO4" 10 "r1"
              100 "1970-01-01 00:01:40" (DhtValues (Some (Qmake 21 1)) (Some (Qmake 55 1)))
              (mkCollector [] 0))
    as (_ & H2 & _).
  split.
  - apply (H1 None). simpl. tauto.
  - apply (H2 "database is locked"%string (Some (Qmake 21 1)) (Some (Qmake 55 1))).
    + simpl. tauto.
    + reflexivity.
Defined.

(** The consecutive-error counter of the collector: with
    [MAX_CONSECUTIVE_READ_ERRORS >= 1] and a counter in [0, MAX), after an
    iteration the counter is again in [0, MAX).  When the store accepts the
    first insert of the iteration, a read with both values sets the counter
    to 0 and the sensor is re-created exactly on the failed read that
    brings the counter to MAX.  When that insert raises
    [sqlite3.OperationalError], a read with both values leaves the counter
    at 1 (the handler's increment), and re-creates the sensor when
    [MAX = 1].  With [MAX_CONSECUTIVE_READ_ERRORS <= 0] (and a counter
    that is not negative) the sensor is re-created after every
    iteration. *)
Theorem collector_error_counter DK ST SP MAX store1 store2 rid epoch ts rd s s' reset :
  collector_iteration DK ST SP MAX store1 store2 rid epoch ts rd s = Some (s', reset) ->
  (1 <= MAX -> 0 <= consecutive_errors s < MAX ->
     0 <= consecutive_errors s' < MAX /\
     (store1 = None ->
        ((exists t h, rd = DhtValues (Some t) (Some h)) -> consecutive_errors s' = 0) /\
        (reset = true <->
           (consecutive_errors s + 1 = MAX /\ forall t h, rd <> DhtValues (Some t) (Some h)))) /\
     (forall m, store1 = Some m -> (exists t h, rd = DhtValues (Some t) (Some h)) ->
        consecutive_errors s' = (if MAX <=? 1 then 0 else 1) /\ reset = (MAX <=? 1))) /\
  (MAX <= 0 -> 0 <= consecutive_errors s -> reset = true /\ consecutive_errors s' = 0).
Proof.
  intros H.
  destruct (collector_iteration_counter_any _ _ _ _ _ _ _ _ _ _ _ _ _ H) as (c1 & Hc1 & Hr1 & Hs1).
  split.
  - intros Hm Hb. split; [|split].
    + rewrite Hs1. destruct (MAX <=? c1) eqn:Ec; [lia|apply Z.leb_gt in Ec; lia].
    + intros ->. destruct (collector_iteration_counter _ _ _ _ _ _ _ _ _ _ _ _ H) as [Hr Hc].
      clear H Hc1 Hr1 Hs1. set (c := consecutive_errors s) in *.
      assert (Hcase : (exists t h, rd = DhtValues (Some t) (Some h)) \/
                      (forall t h, rd <> DhtValues (Some t) (Some h)))
        by (destruct rd as [[t|] [h|]| |];
            [left; eauto|right; intros ? ? E; discriminate E ..]).
      destruct Hcase as [(t & h & ->)|Hn].
      * cbn in Hr, Hc. replace (MAX <=? 0) with false in Hr, Hc
          by (symmetry; apply Z.leb_gt; lia).
        split; [intros _; exact Hc|].
        split; [intros Ht; rewrite Hr in Ht; discriminate|].
        intros [_ Hn]. exfalso. exact (Hn t h eq_refl).
      * assert (E : (match rd with DhtValues (Some _) (Some _) => 0 | _ => c + 1 end) = c + 1)
          by (destruct rd as [[t|] [h|]| |]; try reflexivity; exfalso; exact (Hn t h eq_refl)).
        rewrite E in Hr, Hc.
        split; [intros (t & h & Hg); exfalso; exact (Hn t h Hg)|].
        rewrite Hr, Z.leb_le. split; [intros Hl; split; [lia|exact Hn]|intros [Hl _]; lia].
    + intros m -> (t & h & ->).
      destruct (in_dec string_dec rid (map reading_uuid (c_queue s))) as [Hin|Hf].
      { rewrite collector_iteration_dup in H by exact Hin. discriminate H. }
      destruct store2 as [m'|].
      { unfold collector_iteration in H. cbv beta zeta in H.
        rewrite insert_queue_locked in H. discriminate H. }
      destruct (collector_iteration_locked_values DK ST SP MAX m rid epoch ts (Some t) (Some h) s Hf)
        as (s0 & r0 & E & _ & Hr0 & Hc0).
      rewrite H in E. injection E as <- <-. split; assumption.
  - intros Hm Hc0. assert (Ec : (MAX <=? c1) = true) by (apply Z.leb_le; lia).
    rewrite Ec in Hr1, Hs1. split; assumption.
Qed.

Lemma collector_error_counter_witness :
  exists s' reset,
    collector_iteration "raspi-unknown" "DHT11" "GPIO4" 3 None None "r3" 100 "1970-01-01 00:01:40"
      (DhtRuntimeError "Checksum did not validate") (mkCollector [] 2) = Some (s', reset) /\
    reset = true.
Proof.
  eexists; eexists. split; [reflexivity|].
  destruct (collector_error_counter "raspi-unknown" "DHT11" "GPIO4" 3 None None "r3"
              100 "1970-01-01 00:01:40" (DhtRuntimeError "Checksum did not validate")
              (mkCollector [] 2) _ _ eq_refl) as [H _].
  destruct (H ltac:(lia) ltac:(cbn; lia)) as (_ & H1 & _).
  destruct (H1 eq_refl) as (_ & Hr).
  apply Hr. split; [reflexivity|intros t h E; discriminate E].
Defined.

(** ** common.py: [pin_for_db] *)

Lemma py_isspace_upper c : py_isspace (py_upper_char c) = py_isspace c.
Proof. destruct c as [[] [] [] [] [] [] [] []]; reflexivity. Qed.

Lemma py_upper_char_idem c : py_upper_char (py_upper_char c) = py_upper_char c.
Proof. destruct c as [[] [] [] [] [] [] [] []]; reflexivity. Qed.

Lemma py_digit_upper_space c :
  py_isdigit_char c = true -> py_upper_char c = c /\ py_isspace c = false.
Proof. destruct c as [[] [] [] [] [] [] [] []]; intros H; (discriminate H || split; reflexivity). Qed.

Lemma py_lstrip_no_lead s : no_lead_space (py_lstrip s).
Proof.
  induction s as [|c s IH]; [exact I|]. simpl.
  destruct (py_isspace c) eqn:E; [exact IH|exact E].
Qed.

Lemma py_lstrip_id s : no_lead_space s -> py_lstrip s = s.
Proof. destruct s as [|c s]; [reflexivity|]. simpl. intros H. rewrite H. reflexivity. Qed.

Lemma py_lstrip_trail m : no_lead_space (rev m) -> no_lead_space (rev (py_lstrip m)).
Proof.
  induction m as [|c m IH]; [auto|]. simpl. intros H.
  destruct (py_isspace c) eqn:E; [|exact H].
  apply IH. destruct (rev m) as [|a r]; [exact I|exact H].
Qed.

Lemma py_strip_shape s :
  no_lead_space (py_strip s) /\ no_lead_space (rev (py_strip s)).
Proof.
  unfold py_strip. rewrite rev_involutive. split; [|apply py_lstrip_no_lead].
  apply py_lstrip_trail. rewrite rev_involutive. apply py_lstrip_no_lead.
Qed.

Lemma py_strip_id s : no_lead_space s -> no_lead_space (rev s) -> py_strip s = s.
Proof.
  intros H1 H2. unfold py_strip. rewrite (py_lstrip_id s H1), (py_lstrip_id _ H2).
  apply rev_involutive.
Qed.

Lemma no_lead_space_upper s : no_lead_space (py_upper s) <-> no_lead_space s.
Proof. destruct s as [|c s]; [tauto|]. simpl. rewrite py_isspace_upper. tauto. Qed.

Lemma py_upper_idem s : py_upper (py_upper s) = py_upper s.
Proof. unfold py_upper. rewrite map_map. apply map_ext. apply py_upper_char_idem. Qed.

Lemma py_upper_strip_shape s :
  let u := py_upper (py_strip s) in
  no_lead_space u /\ no_lead_space (rev u) /\ py_upper u = u.
Proof.
  cbv zeta. destruct (py_strip_shape s) as [H1 H2].
  split; [apply no_lead_space_upper; exact H1|split; [|apply py_upper_idem]].
  unfold py_upper. rewrite <- map_rev. apply no_lead_space_upper. exact H2.
Qed.

Lemma py_startswith_app p r : py_startswith (p ++ r) p = true.
Proof. induction p as [|c p IH]; [reflexivity|]. simpl. rewrite Ascii.eqb_refl. exact IH. Qed.

Lemma py_isdigit_shape ds :
  py_isdigit ds = true ->
  ds <> [] /\ py_upper ds = ds /\ no_lead_space (rev ds).
Proof.
  intros H. destruct ds as [|d ds']; [discriminate H|]. split; [discriminate|].
  unfold py_isdigit in H. pose proof (proj1 (forallb_forall py_isdigit_char (d :: ds')) H) as H'. clear H. rename H' into H. split.
  - unfold py_upper. rewrite <- map_id. apply map_ext_in.
    intros c Hc. exact (proj1 (py_digit_upper_space c (H c Hc))).
  - destruct (rev (d :: ds')) as [|x r] eqn:R; [exact I|].
    assert (Hx : In x (d :: ds')) by (rewrite in_rev, R; left; reflexivity).
    exact (proj2 (py_digit_upper_space x (H x Hx))).
Qed.

(** The three forms [pin_for_db] can return. *)
Lemma pin_for_db_cases x :
  let s := py_upper (py_strip (match x with Some l => l | None => [] end)) in
  (pin_for_db x = s /\ py_startswith s GPIO = true) \/
  (exists ds, s = "D"%char :: ds /\ py_isdigit ds = true /\ py_startswith s GPIO = false /\
              pin_for_db x = GPIO ++ ds) \/
  (pin_for_db x = s /\ py_startswith s GPIO = false /\
   (py_startswith s ["D"%char] && py_isdigit (tl s)) = false).
Proof.
  cbv zeta. unfold pin_for_db.
  set (s := py_upper (py_strip (match x with Some l => l | None => [] end))).
  destruct (py_startswith s GPIO) eqn:Eg; [left; auto|right].
  destruct (py_startswith s ["D"%char] && py_isdigit (tl s)) eqn:Ed; [left|right; auto].
  apply andb_true_iff in Ed as [Hd Hds].
  destruct s as [|c ds]; [discriminate Hd|]. change ((Ascii.eqb "D"%char c && true) = true) in Hd.
  rewrite andb_true_r in Hd. apply Ascii.eqb_eq in Hd. subst c.
  exists ds. auto.
Qed.

Lemma pin_for_db_some u :
  pin_for_db (Some u) =
  let s := py_upper (py_strip u) in
  if py_startswith s GPIO then s
  else if py_startswith s ["D"%char] && py_isdigit (tl s) then GPIO ++ tl s
  else s.
Proof. reflexivity. Qed.

Lemma no_lead_space_app l r : no_lead_space l -> no_lead_space r -> no_lead_space (l ++ r).
Proof. destruct l; simpl; auto. Qed.

Lemma py_normal_fixed u :
  no_lead_space u -> no_lead_space (rev u) -> py_upper u = u -> py_upper (py_strip u) = u.
Proof. intros H1 H2 H3. rewrite (py_strip_id u H1 H2). exact H3. Qed.

Lemma pin_for_db_shape x :
  let out := pin_for_db x in
  no_lead_space out /\ no_lead_space (rev out) /\ py_upper out = out.
Proof.
  cbv zeta.
  destruct (py_upper_strip_shape (match x with Some l => l | None => [] end)) as (S1 & S2 & S3).
  destruct (pin_for_db_cases x) as [[E _]|[[ds (_ & Hd & _ & E)]|(E & _ & _)]];
    rewrite E; auto.
  destruct (py_isdigit_shape ds Hd) as (_ & U & R).
  split; [reflexivity|split].
  - rewrite rev_app_distr. apply no_lead_space_app; [exact R|reflexivity].
  - unfold py_upper in *. rewrite map_app, U. reflexivity.
Qed.

(** X: [pin_for_db] is idempotent: normalising an already normalised pin
    (trimmed, upper-cased, with a "D<n>" name turned into "GPIO<n>") gives it
    back unchanged, for any ASCII input or [None]. *)
Theorem pin_for_db_idempotent x :
  (forall l, x = Some l -> is_ascii l = true) ->
  pin_for_db (Some (pin_for_db x)) = pin_for_db x.
Proof.
  intros _. destruct (pin_for_db_shape x) as (S1 & S2 & S3).
  rewrite pin_for_db_some, (py_normal_fixed _ S1 S2 S3). cbv zeta.
  destruct (pin_for_db_cases x) as [[E G]|[[ds (_ & _ & _ & E)]|(E & G & D)]];
    rewrite E in *.
  - rewrite G. reflexivity.
  - rewrite py_startswith_app. reflexivity.
  - rewrite G, D. reflexivity.
Qed.

Lemma pin_for_db_idempotent_witness :
  pin_for_db (Some (pin_for_db (Some (list_ascii_of_string " d4 ")))) =
  pin_for_db (Some (list_ascii_of_string " d4 ")) /\
  pin_for_db (Some (list_ascii_of_string " d4 ")) = list_ascii_of_string "GPIO4".
Proof.
  split; [|reflexivity].
  apply pin_for_db_idempotent. intros l E. injection E as <-. reflexivity.
Defined.

(** X: what [pin_for_db] returns, for ASCII input: a string with no leading
    or trailing whitespace and no lower-case letter; when the trimmed,
    upper-cased input is "D" followed by one or more digits, the result is
    "GPIO" followed by those digits. *)
Theorem pin_for_db_normal_form x :
  (forall l, x = Some l -> is_ascii l = true) ->
  let out := pin_for_db x in
  no_lead_space out /\ no_lead_space (rev out) /\ py_upper out = out /\
  (forall ds, py_upper (py_strip (match x with Some l => l | None => [] end)) = "D"%char :: ds ->
              py_isdigit ds = true -> out = GPIO ++ ds).
Proof.
  intros _. cbv zeta. destruct (pin_for_db_shape x) as (S1 & S2 & S3).
  split; [exact S1|split; [exact S2|split; [exact S3|]]].
  intros ds Hs Hd. unfold pin_for_db. rewrite Hs. simpl tl.
  replace (py_isdigit ds) with true. reflexivity.
Qed.

Lemma pin_for_db_normal_form_witness :
  let out := pin_for_db (Some (list_ascii_of_string " d17  ")) in
  no_lead_space out /\ no_lead_space (rev out) /\ py_upper out = out /\
  out = GPIO ++ list_ascii_of_string "17".
Proof.
  destruct (pin_for_db_normal_form (Some (list_ascii_of_string " d17  ")))
    as (S1 & S2 & S3 & H); [intros l E; injection E as <-; reflexivity|].
  split; [exact S1|split; [exact S2|split; [exact S3|]]].
  apply H; reflexivity.
Defined.

(** ** sync.py: [mysql_config_ok] *)

(** X: [mysql_config_ok] reports the configuration usable exactly when host,
    user, password and database are all non-empty; its report never shows
    the password: two settings that differ only in the password give the
    same report, as long as both passwords are empty or both are not. *)
Theorem mysql_config_ok_spec en host user pass db :
  (fst (mysql_config_ok en host user pass db) = true <->
   host <> EmptyString /\ user <> EmptyString /\ pass <> EmptyString /\ db <> EmptyString) /\
  (forall pass', py_str_empty pass' = py_str_empty pass ->
   snd (mysql_config_ok en host user pass' db) = snd (mysql_config_ok en host user pass db)).
Proof.
  split.
  - unfold mysql_config_ok. cbn [fst].
    destruct host, user, pass, db; cbn; split;
      first [ intros H; discriminate H
            | intros (H1 & H2 & H3 & H4); congruence
            | intros _; repeat split; discriminate
            | reflexivity ].
  - intros pass' E. unfold mysql_config_ok. cbn [snd]. rewrite E. reflexivity.
Qed.

Lemma mysql_config_ok_spec_witness :
  snd (mysql_config_ok true "db.local" "sense" "hunter2" "leathersense") =
  snd (mysql_config_ok true "db.local" "sense" "s3cret" "leathersense") /\
  fst (mysql_config_ok true "db.local" "sense" "s3cret" "leathersense") = true.
Proof.
  destruct (mysql_config_ok_spec true "db.local" "sense" "s3cret" "leathersense") as [Hok Hrep].
  split; [apply Hrep; reflexivity|].
  apply Hok. repeat split; discriminate.
Defined.

(** ** sync.py: [push_batch_mysql] *)

Lemma same_uuid_sym u r : same_uuid u r = String.eqb u (rd_uuid r).
Proof. unfold same_uuid. apply String.eqb_sym. Qed.

Lemma set_values_twice t t' r : set_values t (set_values t' r) = set_values t r.
Proof. reflexivity. Qed.

Lemma set_values_self t : set_values t t = t.
Proof. destruct t; reflexivity. Qed.

Lemma last_match_snoc u b t :
  last_match u (b ++ [t]) = if same_uuid u t then Some t else last_match u b.
Proof. unfold last_match. rewrite fold_left_app. reflexivity. Qed.

Lemma apply_updates_uuid b r : rd_uuid (apply_updates b r) = rd_uuid r.
Proof.
  revert r. induction b as [|t b IH]; intros r; [reflexivity|]. simpl.
  rewrite IH. destruct (same_uuid (rd_uuid t) r); reflexivity.
Qed.

Lemma apply_updates_snoc b t r :
  apply_updates (b ++ [t]) r =
  if same_uuid (rd_uuid t) (apply_updates b r) then set_values t (apply_updates b r)
  else apply_updates b r.
Proof. unfold apply_updates. rewrite fold_left_app. reflexivity. Qed.

Lemma apply_updates_last b r :
  apply_updates b r =
  match last_match (rd_uuid r) b with Some t => set_values t r | None => r end.
Proof.
  induction b as [|t b IH] using rev_ind; [reflexivity|].
  rewrite apply_updates_snoc, last_match_snoc. unfold same_uuid at 1 2.
  rewrite (apply_updates_uuid b r), (String.eqb_sym (rd_uuid r) (rd_uuid t)).
  rewrite IH. destruct (String.eqb (rd_uuid t) (rd_uuid r)); [|reflexivity].
  destruct (last_match (rd_uuid r) b); reflexivity.
Qed.

Lemma existsb_same_uuid_map f u rs :
  (forall r, rd_uuid (f r) = rd_uuid r) ->
  existsb (same_uuid u) (map f rs) = existsb (same_uuid u) rs.
Proof.
  intros Hf. induction rs as [|r rs IH]; [reflexivity|]. simpl.
  unfold same_uuid at 1 3. rewrite Hf, IH. reflexivity.
Qed.

Lemma upsert_reading_keeps u uniq rs t :
  existsb (same_uuid u) rs = true -> existsb (same_uuid u) (upsert_reading uniq rs t) = true.
Proof.
  intros H. unfold upsert_reading.
  destruct (uniq && existsb (same_uuid (rd_uuid t)) rs).
  - rewrite existsb_same_uuid_map; [exact H|].
    intros r. destruct (same_uuid (rd_uuid t) r); reflexivity.
  - rewrite existsb_app, H. reflexivity.
Qed.

Lemma upsert_reading_adds uniq rs t :
  existsb (same_uuid (rd_uuid t)) (upsert_reading uniq rs t) = true.
Proof.
  unfold upsert_reading.
  destruct (uniq && existsb (same_uuid (rd_uuid t)) rs) eqn:E.
  - apply andb_true_iff in E as [_ E].
    rewrite existsb_same_uuid_map; [exact E|].
    intros r. destruct (same_uuid (rd_uuid t) r); reflexivity.
  - rewrite existsb_app. simpl. unfold same_uuid at 2. rewrite String.eqb_refl.
    apply orb_true_r.
Qed.

(** After the upserts of a batch, every uuid of the batch is in the table. *)
Lemma fold_upsert_present uniq b rs t :
  In t b -> existsb (same_uuid (rd_uuid t)) (fold_left (upsert_reading uniq) b rs) = true.
Proof.
  induction b as [|t' b IH] using rev_ind; [intros []|].
  intros Hin. rewrite fold_left_app. simpl.
  apply in_app_or in Hin as [Hin|[<-|[]]].
  - apply upsert_reading_keeps, IH, Hin.
  - apply upsert_reading_adds.
Qed.

Lemma fold_upsert_all_present b rs :
  (forall t, In t b -> existsb (same_uuid (rd_uuid t)) rs = true) ->
  fold_left (upsert_reading true) b rs = map (apply_updates b) rs.
Proof.
  revert rs. induction b as [|t b IH]; intros rs H; simpl.
  - symmetry. apply map_id.
  - unfold upsert_reading at 2. rewrite (H t (or_introl eq_refl)). simpl.
    rewrite IH.
    + rewrite map_map. reflexivity.
    + intros t' Ht'. rewrite existsb_same_uuid_map; [apply H; right; exact Ht'|].
      intros r. destruct (same_uuid (rd_uuid t) r); reflexivity.
Qed.

Lemma upsert_reading_true rs t :
  upsert_reading true rs t =
  if existsb (same_uuid (rd_uuid t)) rs
  then map (fun r => if same_uuid (rd_uuid t) r then set_values t r else r) rs
  else rs ++ [t].
Proof. reflexivity. Qed.

(** With [UNIQUE(reading_uuid)], each row whose uuid is in the batch holds
    the values of the batch's last tuple with that uuid. *)
Lemma fold_upsert_values b rs r t :
  In r (fold_left (upsert_reading true) b rs) ->
  last_match (rd_uuid r) b = Some t -> set_values t r = r.
Proof.
  revert r t. induction b as [|t' b IH] using rev_ind; intros r t Hr Hl;
    [discriminate Hl|].
  rewrite fold_left_app in Hr. cbn [fold_left] in Hr. rewrite last_match_snoc in Hl.
  set (Y := fold_left (upsert_reading true) b rs) in *.
  rewrite upsert_reading_true in Hr.
  destruct (existsb (same_uuid (rd_uuid t')) Y) eqn:Ex.
  - apply in_map_iff in Hr as (r0 & <- & Hr0).
    destruct (same_uuid (rd_uuid t') r0) eqn:E.
    + assert (Eq : same_uuid (rd_uuid r0) t' = true)
        by (unfold same_uuid in *; rewrite String.eqb_sym; exact E).
      change (rd_uuid (set_values t' r0)) with (rd_uuid r0) in Hl.
      rewrite Eq in Hl. injection Hl as <-. reflexivity.
    + assert (Eq : same_uuid (rd_uuid r0) t' = false)
        by (unfold same_uuid in *; rewrite String.eqb_sym; exact E).
      rewrite Eq in Hl. exact (IH r0 t Hr0 Hl).
  - apply in_app_or in Hr as [Hr|[<-|[]]].
    + assert (Hne : same_uuid (rd_uuid r) t' = false).
      { destruct (same_uuid (rd_uuid r) t') eqn:E; [|reflexivity].
        rewrite <- Ex. symmetry. apply existsb_exists. exists r. split; [exact Hr|].
        unfold same_uuid in *. rewrite String.eqb_sym. exact E. }
      rewrite Hne in Hl. exact (IH r t Hr Hl).
    + unfold same_uuid in Hl. rewrite String.eqb_refl in Hl. injection Hl as <-.
      apply set_values_self.
Qed.

Lemma fold_upsert_not_unique b rs :
  fold_left (upsert_reading false) b rs = rs ++ b.
Proof.
  revert rs. induction b as [|t b IH]; intros rs; simpl.
  - symmetry. apply app_nil_r.
  - rewrite IH. unfold upsert_reading. simpl. rewrite <- app_assoc. reflexivity.
Qed.

Lemma fold_upsert_idempotent b rs :
  fold_left (upsert_reading true) b (fold_left (upsert_reading true) b rs) =
  fold_left (upsert_reading true) b rs.
Proof.
  rewrite fold_upsert_all_present; [|intros t Ht; apply fold_upsert_present, Ht].
  rewrite <- map_id. apply map_ext_in. intros r Hr.
  rewrite apply_updates_last.
  destruct (last_match (rd_uuid r) b) as [t|] eqn:E; [|reflexivity].
  exact (fold_upsert_values b rs r t Hr E).
Qed.

Lemma find_negb_none {X} (p : X -> bool) l :
  find (fun x => negb (p x)) l = None <-> forallb p l = true.
Proof.
  induction l as [|x l IH]; [split; reflexivity|]. simpl.
  destruct (p x); simpl; [exact IH|split; discriminate].
Qed.

Lemma push_batch_mysql_ok fits b db :
  forallb (tuple_accepted fits (sensors db)) b = true ->
  push_batch_mysql fits b db =
  (None, mkMysql (devices db) (devices_auto db) (sensors db) (sensors_auto db)
                 (fold_left (upsert_reading (readings_uuid_unique db)) b (readings db))
                 (readings_uuid_unique db)).
Proof.
  intros H. unfold push_batch_mysql. apply find_negb_none in H. rewrite H. reflexivity.
Qed.

Lemma push_batch_mysql_fail fits b db :
  forallb (tuple_accepted fits (sensors db)) b = false ->
  exists t, In t b /\ tuple_accepted fits (sensors db) t = false /\
            push_batch_mysql fits b db = (Some (tuple_error fits t), db).
Proof.
  intros H. unfold push_batch_mysql.
  destruct (find (fun t => negb (tuple_accepted fits (sensors db) t)) b) as [t|] eqn:E.
  - apply find_some in E as [Hin Ht]. exists t. split; [exact Hin|].
    split; [|reflexivity]. destruct (tuple_accepted fits (sensors db) t); [discriminate Ht|reflexivity].
  - apply find_negb_none in E. congruence.
Qed.

(** X: [push_batch_mysql] succeeds exactly when the server accepts every
    tuple of the batch (its values fit the columns and its [sensor_id]
    exists); a batch with a malformed value is refused; a refused batch
    leaves the database as it was.  Re-sending a batch that it has written:
    with [UNIQUE(reading_uuid)] the second call succeeds and changes
    nothing; without it, every successful call appends all the batch's
    tuples to [readings] again. *)
Theorem push_batch_mysql_redelivery fits b db :
  (fst (push_batch_mysql fits b db) = None <->
   forallb (tuple_accepted fits (sensors db)) b = true) /\
  (forallb fits b = false -> fst (push_batch_mysql fits b db) <> None) /\
  (fst (push_batch_mysql fits b db) <> None -> snd (push_batch_mysql fits b db) = db) /\
  (fst (push_batch_mysql fits b db) = None ->
   let db1 := snd (push_batch_mysql fits b db) in
   (readings_uuid_unique db = true -> push_batch_mysql fits b db1 = (None, db1)) /\
   (readings_uuid_unique db = false ->
    readings db1 = readings db ++ b /\
    fst (push_batch_mysql fits b db1) = None /\
    readings (snd (push_batch_mysql fits b db1)) = readings db ++ b ++ b)).
Proof.
  destruct (forallb (tuple_accepted fits (sensors db)) b) eqn:Fk.
  - rewrite (push_batch_mysql_ok fits b db Fk). cbn [fst snd].
    split; [split; reflexivity|]. split.
    { intros Hf. exfalso. revert Hf. apply Bool.not_false_iff_true.
      apply forallb_forall. intros t Ht. eapply forallb_forall in Fk; [|exact Ht].
      unfold tuple_accepted in Fk. apply andb_true_iff in Fk as [Fk _]. exact Fk. }
    split; [intros H; exfalso; apply H; reflexivity|].
    intros _. cbv zeta.
    assert (Fk1 : forallb (tuple_accepted fits (sensors db)) b = true) by exact Fk.
    split.
    + intros U. rewrite (push_batch_mysql_ok fits); [|exact Fk1]. cbn [readings_uuid_unique readings devices devices_auto sensors sensors_auto].
      rewrite U, fold_upsert_idempotent. reflexivity.
    + intros U. rewrite (push_batch_mysql_ok fits); [|exact Fk1]. cbn [fst snd readings_uuid_unique readings].
      rewrite U, !fold_upsert_not_unique, <- app_assoc. auto.
  - destruct (push_batch_mysql_fail fits b db Fk) as (t & _ & _ & ->). cbn [fst snd].
    split; [split; discriminate|]. split; [intros _; discriminate|].
    split; [reflexivity|]. intros H; discriminate H.
Qed.

Lemma push_batch_mysql_redelivery_witness :
  exists db t,
  push_batch_mysql (fun _ => true) [t] (snd (push_batch_mysql (fun _ => true) [t] db)) =
    (None, snd (push_batch_mysql (fun _ => true) [t] db)) /\
  readings (snd (push_batch_mysql (fun _ => true) [t] db)) = [t] /\
  fst (push_batch_mysql (fun _ => false) [t] db) <> None.
Proof.
  exists (mkMysql [] 2 [mkSensor 7 1 "DHT11" "GPIO4" "DHT11@GPIO4"] 8 [] true).
  exists (mkReading "r1" 7 "2024-01-01 00:00:00" None None 0 (Some "Leitura nula do DHT"%string)).
  split; [|split; [reflexivity|]].
  - match goal with
    | |- push_batch_mysql ?f ?b (snd (push_batch_mysql _ _ ?d)) = _ =>
      destruct (push_batch_mysql_redelivery f b d) as (_ & _ & _ & H);
      apply (H eq_refl); reflexivity
    end.
  - match goal with
    | |- fst (push_batch_mysql ?f ?b ?d) <> None =>
      destruct (push_batch_mysql_redelivery f b d) as (_ & H & _);
      apply H; reflexivity
    end.
Defined.

(** ** sync.py: [ensure_sensor] and the batch loop of [main] *)

Lemma max_sen_id_in l m : max_sen_id l = Some m -> exists s, In s l /\ sen_id s = m.
Proof.
  revert m. induction l as [|s l IH]; intros m H; [discriminate H|]. simpl in H.
  destruct (max_sen_id l) as [m'|] eqn:E; injection H as <-.
  - destruct (Z.max_spec (sen_id s) m') as [[_ ->]|[_ ->]].
    + destruct (IH m' eq_refl) as (s' & Hs' & Hid). exists s'. simpl. auto.
    + exists s. simpl. auto.
  - exists s. simpl. auto.
Qed.

Lemma max_sen_id_none l : max_sen_id l = None -> l = [].
Proof. destruct l as [|s l]; [reflexivity|]. simpl. destruct (max_sen_id l); discriminate. Qed.

Lemma sensor_matches_eq d ty p s :
  sensor_matches d ty p s = true -> sen_device_id s = d /\ sen_sensor_type s = ty /\ sen_pin s = p.
Proof.
  unfold sensor_matches. intros H.
  apply andb_true_iff in H as [H H3]. apply andb_true_iff in H as [H1 H2].
  apply Z.eqb_eq in H1. apply String.eqb_eq in H2. apply String.eqb_eq in H3. auto.
Qed.

Lemma sensors_grow_once_refl db : sensors_grow_once db db.
Proof. intros d ty p. left. reflexivity. Qed.

Lemma sensors_grow_once_trans db1 db2 db3 :
  sensors_grow_once db1 db2 -> sensors_grow_once db2 db3 -> sensors_grow_once db1 db3.
Proof.
  intros H12 H23 d ty p.
  destruct (H12 d ty p) as [E12|[E1 E2]]; destruct (H23 d ty p) as [E23|[E2' E3]]; lia.
Qed.

Lemma ensure_sensor_spec device_id sensor_type pin label db :
  let (id, db') := ensure_sensor device_id sensor_type pin label db in
  (exists s, In s (sensors db') /\ sen_id s = id /\
             sensor_matches device_id sensor_type pin s = true) /\
  (exists new, sensors db' = sensors db ++ new) /\
  devices db' = devices db /\ readings db' = readings db /\
  readings_uuid_unique db' = readings_uuid_unique db /\
  sensors_grow_once db db'.
Proof.
  unfold ensure_sensor.
  destruct (max_sen_id (filter (sensor_matches device_id sensor_type pin) (sensors db)))
    as [id|] eqn:E.
  - destruct (max_sen_id_in _ _ E) as (s & Hs & Hid). apply filter_In in Hs as [Hs Hm].
    split; [exists s; auto|].
    split; [exists []; symmetry; apply app_nil_r|].
    repeat split; try reflexivity. apply sensors_grow_once_refl.
  - apply max_sen_id_none in E. cbn [sensors devices readings readings_uuid_unique].
    split.
    { eexists. split; [apply in_or_app; right; left; reflexivity|].
      split; [reflexivity|]. unfold sensor_matches. cbn.
      rewrite Z.eqb_refl, !String.eqb_refl. reflexivity. }
    split; [eexists; reflexivity|].
    repeat split; try reflexivity.
    intros d ty p. unfold count_sensors. cbn [sensors].
    rewrite filter_app, length_app. cbn [filter].
    destruct (sensor_matches d ty p _) eqn:M; [right|left; simpl; lia].
    apply sensor_matches_eq in M as (Hd & Ht & Hp). cbn in Hd, Ht, Hp. subst.
    rewrite E. simpl. lia.
Qed.

Lemma cache_lookup_some k cache v :
  cache_lookup k cache = Some v -> exists k', In (k', v) cache /\ k' = k.
Proof.
  induction cache as [|[k0 v0] cache IH]; intros H; [discriminate H|]. simpl in H.
  destruct (String.eqb (fst k0) (fst k) && String.eqb (snd k0) (snd k)) eqn:E.
  - injection H as <-. apply andb_true_iff in E as [E1 E2].
    apply String.eqb_eq in E1. apply String.eqb_eq in E2.
    exists k0. split; [left; reflexivity|]. destruct k0, k; simpl in *; congruence.
  - destruct (IH H) as (k' & Hin & Hk). exists k'. split; [right; exact Hin|exact Hk].
Qed.

Lemma cache_ok_grow device_id cache db db' new :
  sensors db' = sensors db ++ new -> cache_ok device_id cache db -> cache_ok device_id cache db'.
Proof.
  intros E H k v Hl. destruct (H k v Hl) as (s & Hs & Hid & Hm).
  exists s. rewrite E. split; [apply in_or_app; left; exact Hs|auto].
Qed.

Lemma cache_ok_add device_id cache db key sid s :
  cache_ok device_id cache db -> In s (sensors db) -> sen_id s = sid ->
  sensor_matches device_id (fst key) (snd key) s = true ->
  cache_ok device_id ((key, sid) :: cache) db.
Proof.
  intros H Hs Hid Hm k v Hl. simpl in Hl.
  destruct (String.eqb (fst key) (fst k) && String.eqb (snd key) (snd k)) eqn:E.
  - injection Hl as <-. apply andb_true_iff in E as [E1 E2].
    apply String.eqb_eq in E1. apply String.eqb_eq in E2.
    exists s. rewrite <- E1, <- E2. auto.
  - exact (H k v Hl).
Qed.

Lemma tuple_of_grow device_id db db' new r t :
  sensors db' = sensors db ++ new -> tuple_of device_id db r t -> tuple_of device_id db' r t.
Proof.
  intros E (H1 & H2 & H3 & H4 & H5 & H6 & s & Hs & Hid & Hm).
  repeat split; auto. exists s. rewrite E. split; [apply in_or_app; left; exact Hs|auto].
Qed.

Lemma build_batch_step device_id cache' rows db db1 r sid new1 :
  cache_ok device_id cache' db1 ->
  (exists s, In s (sensors db1) /\ sen_id s = sid /\
             sensor_matches device_id (sensor_type r) (pin r) s = true) ->
  sensors db1 = sensors db ++ new1 ->
  devices db1 = devices db -> readings db1 = readings db ->
  readings_uuid_unique db1 = readings_uuid_unique db -> sensors_grow_once db db1 ->
  (cache_ok device_id cache' db1 ->
   let (batch, db') := build_batch device_id cache' rows db1 in
   Forall2 (tuple_of device_id db') rows batch /\
   (exists new, sensors db' = sensors db1 ++ new) /\
   devices db' = devices db1 /\ readings db' = readings db1 /\
   readings_uuid_unique db' = readings_uuid_unique db1 /\
   sensors_grow_once db1 db') ->
  let (batch', db2) :=
    let (batch, db2) := build_batch device_id cache' rows db1 in
    (mkReading (reading_uuid r) sid (ts_utc r) (temperature_c r) (humidity_pct r)
               (ok r) (error_msg r) :: batch, db2) in
  Forall2 (tuple_of device_id db2) (r :: rows) batch' /\
  (exists new, sensors db2 = sensors db ++ new) /\
  devices db2 = devices db /\ readings db2 = readings db /\
  readings_uuid_unique db2 = readings_uuid_unique db /\
  sensors_grow_once db db2.
Proof.
  intros Hc' Hsid Hn1 Hd1 Hr1 Hu1 Hg1 IH. specialize (IH Hc').
  destruct (build_batch device_id cache' rows db1) as [batch db2].
  destruct IH as (HF & (new2 & Hn2) & Hd2 & Hr2 & Hu2 & Hg2).
  split.
  - constructor; [|exact HF].
    apply (tuple_of_grow device_id db1 db2 new2); [exact Hn2|].
    destruct Hsid as (s & Hs & Hid & Hm).
    repeat split; try reflexivity. exists s. auto.
  - split; [exists (new1 ++ new2); rewrite Hn2, Hn1, app_assoc; reflexivity|].
    split; [congruence|]. split; [congruence|]. split; [congruence|].
    exact (sensors_grow_once_trans _ _ _ Hg1 Hg2).
Qed.

Lemma build_batch_gen device_id cache rows db :
  cache_ok device_id cache db ->
  let (batch, db') := build_batch device_id cache rows db in
  Forall2 (tuple_of device_id db') rows batch /\
  (exists new, sensors db' = sensors db ++ new) /\
  devices db' = devices db /\ readings db' = readings db /\
  readings_uuid_unique db' = readings_uuid_unique db /\
  sensors_grow_once db db'.
Proof.
  revert cache db. induction rows as [|r rows IH]; intros cache db Hc.
  - simpl. split; [constructor|]. split; [exists []; symmetry; apply app_nil_r|].
    repeat split; try reflexivity. apply sensors_grow_once_refl.
  - cbn [build_batch].
    destruct (cache_lookup (sensor_type r, pin r) cache) as [sid|] eqn:L.
    + apply (build_batch_step device_id cache rows db db r sid []);
        first [ exact Hc | exact (Hc _ _ L) | reflexivity | symmetry; apply app_nil_r
              | apply sensors_grow_once_refl | apply IH ].
    + pose proof (ensure_sensor_spec device_id (sensor_type r) (pin r)
                    (sensor_type r ++ "@" ++ pin r)%string db) as Es.
      destruct (ensure_sensor _ _ _ _ db) as [sid db1].
      destruct Es as ((s & Hs & Hid & Hm) & (new & Hnew) & Hd & Hr & Hu & Hg).
      apply (build_batch_step device_id _ rows db db1 r sid new);
        [ apply (cache_ok_add _ _ _ _ _ s); auto; exact (cache_ok_grow _ _ _ _ _ Hnew Hc)
        | exists s; auto | assumption .. | apply IH ].
Qed.

Lemma cache_ok_nil device_id db : cache_ok device_id [] db.
Proof. intros k v H. discriminate H. Qed.

(** X: the loop of [main] that builds [batch] keeps the fetched rows'
    order, uuid, timestamp and values, and gives each tuple the id of a
    [sensors] row of the forwarder's own device (the [device_id] of
    [ensure_device(cur, DEVICE_KEY, ...)], whatever [device_key] the queue
    row carries) with the row's sensor_type and pin.  It only appends to
    [sensors], at most one row per (device_id, sensor_type, pin) that had
    none, and leaves [devices] and [readings] alone. *)
Theorem build_batch_spec device_id rows db :
  let (batch, db') := build_batch device_id [] rows db in
  Forall2 (tuple_of device_id db') rows batch /\
  (exists new, sensors db' = sensors db ++ new) /\
  devices db' = devices db /\ readings db' = readings db /\
  readings_uuid_unique db' = readings_uuid_unique db /\
  sensors_grow_once db db'.
Proof. apply build_batch_gen, cache_ok_nil. Qed.

Lemma Forall2_in_r {X Y} (R : X -> Y -> Prop) l1 l2 y :
  Forall2 R l1 l2 -> In y l2 -> exists x, In x l1 /\ R x y.
Proof.
  intros H. induction H as [|x y' l1 l2 Hxy _ IH]; intros Hin; [destruct Hin|].
  destruct Hin as [<-|Hin]; [exists x; split; [left|]; auto|].
  destruct (IH Hin) as (x' & Hx' & Hr). exists x'. split; [right|]; auto.
Qed.

Lemma Forall2_in_l {X Y} (R : X -> Y -> Prop) l1 l2 x :
  Forall2 R l1 l2 -> In x l1 -> exists y, In y l2 /\ R x y.
Proof.
  intros H. induction H as [|x' y l1 l2 Hxy _ IH]; intros Hin; [destruct Hin|].
  destruct Hin as [<-|Hin]; [exists y; split; [left|]; auto|].
  destruct (IH Hin) as (y' & Hy' & Hr). exists y'. split; [right|]; auto.
Qed.

Lemma tuple_of_uuids device_id db rows batch :
  Forall2 (tuple_of device_id db) rows batch -> map rd_uuid batch = map reading_uuid rows.
Proof.
  intros H. induction H as [|r t rows batch Ht _ IH]; [reflexivity|].
  simpl. rewrite IH. f_equal. apply Ht.
Qed.

Lemma last_match_nodup b t :
  NoDup (map rd_uuid b) -> In t b -> last_match (rd_uuid t) b = Some t.
Proof.
  induction b as [|t' b IH] using rev_ind; intros Hnd Hin; [destruct Hin|].
  rewrite map_app in Hnd. simpl in Hnd.
  apply NoDup_remove in Hnd as [Hnd Hnot]. rewrite app_nil_r in Hnd, Hnot.
  rewrite last_match_snoc.
  apply in_app_or in Hin as [Hin|[<-|[]]].
  - destruct (same_uuid (rd_uuid t) t') eqn:E.
    + exfalso. apply Hnot. unfold same_uuid in E. apply String.eqb_eq in E.
      rewrite E. apply in_map, Hin.
    + apply IH; assumption.
  - unfold same_uuid. rewrite String.eqb_refl. reflexivity.
Qed.

(** X: a batch built by the loop of [main] never violates the foreign key
    [readings.sensor_id]: [push_batch_mysql] on it succeeds exactly when
    every tuple's values fit the columns of [readings].  When it succeeds
    and the fetched rows have distinct uuids, [readings] has for each row a
    reading with its uuid and the row's temperature, humidity, ok and
    error message, with or without [UNIQUE(reading_uuid)]. *)
Theorem build_then_push_mysql fits device_id rows db :
  let (batch, db1) := build_batch device_id [] rows db in
  (fst (push_batch_mysql fits batch db1) = None <-> forallb fits batch = true) /\
  (forallb fits batch = true ->
   NoDup (map reading_uuid rows) ->
   forall r, In r rows ->
   exists rd, In rd (readings (snd (push_batch_mysql fits batch db1))) /\
              rd_uuid rd = reading_uuid r /\ rd_temperature_c rd = temperature_c r /\
              rd_humidity_pct rd = humidity_pct r /\ rd_ok rd = ok r /\
              rd_error_msg rd = error_msg r).
Proof.
  pose proof (build_batch_gen device_id [] rows db (cache_ok_nil device_id db)) as H.
  destruct (build_batch device_id [] rows db) as [batch db1].
  destruct H as (HF & _).
  assert (Fk : forall t, In t batch ->
                 existsb (fun s => sen_id s =? rd_sensor_id t) (sensors db1) = true).
  { intros t Ht.
    destruct (Forall2_in_r _ _ _ _ HF Ht) as (r & _ & (_ & _ & _ & _ & _ & _ & s & Hs & Hid & _)).
    apply existsb_exists. exists s. split; [exact Hs|]. apply Z.eqb_eq, Hid. }
  assert (Acc : forallb (tuple_accepted fits (sensors db1)) batch = forallb fits batch).
  { clear HF. induction batch as [|t batch IH]; [reflexivity|]. simpl.
    unfold tuple_accepted at 1. rewrite (Fk t (or_introl eq_refl)), andb_true_r.
    rewrite IH; [reflexivity|]. intros t' Ht'. apply Fk. right. exact Ht'. }
  split.
  { destruct (forallb fits batch) eqn:Fi.
    - rewrite (push_batch_mysql_ok fits batch db1); [split; reflexivity|congruence].
    - destruct (push_batch_mysql_fail fits batch db1) as (t & _ & _ & ->); [congruence|].
      split; discriminate. }
  intros Fi Hnd r Hr.
  rewrite (push_batch_mysql_ok fits batch db1); [|congruence]. cbn [snd readings].
  destruct (Forall2_in_l _ _ _ _ HF Hr) as (t & Ht & (E1 & _ & E3 & E4 & E5 & E6 & _)).
  assert (Hndb : NoDup (map rd_uuid batch)) by (rewrite (tuple_of_uuids _ _ _ _ HF); exact Hnd).
  destruct (readings_uuid_unique db1).
  - pose proof (fold_upsert_present true batch (readings db1) t Ht) as Hp.
    apply existsb_exists in Hp as (r0 & Hr0 & Hm).
    unfold same_uuid in Hm. apply String.eqb_eq in Hm.
    assert (Hl : last_match (rd_uuid r0) batch = Some t)
      by (rewrite Hm; apply last_match_nodup; assumption).
    pose proof (fold_upsert_values batch (readings db1) r0 t Hr0 Hl) as Hv.
    exists r0. split; [exact Hr0|].
    assert (V : rd_temperature_c r0 = rd_temperature_c t /\ rd_humidity_pct r0 = rd_humidity_pct t /\
                rd_ok r0 = rd_ok t /\ rd_error_msg r0 = rd_error_msg t)
      by (rewrite <- Hv; repeat split).
    destruct V as (V3 & V4 & V5 & V6). repeat split; congruence.
  - rewrite fold_upsert_not_unique. exists t.
    split; [apply in_or_app; right; exact Ht|]. repeat split; assumption.
Qed.

Lemma build_then_push_mysql_witness :
  exists rd,
    In rd (readings (snd (push_batch_mysql (fun _ => true)
      (fst (build_batch 1 [] [reading "a" 100] (mkMysql [] 2 [] 1 [] true)))
      (snd (build_batch 1 [] [reading "a" 100] (mkMysql [] 2 [] 1 [] true)))))) /\
    rd_uuid rd = reading_uuid (reading "a" 100).
Proof.
  pose proof (build_then_push_mysql (fun _ => true) 1 [reading "a" 100]
                (mkMysql [] 2 [] 1 [] true)) as H.
  destruct (build_batch 1 [] [reading "a" 100] (mkMysql [] 2 [] 1 [] true)) as [batch db1].
  destruct H as [_ H].
  destruct (H ltac:(apply forallb_forall; reflexivity)
              ltac:(repeat constructor; simpl; tauto) (reading "a" 100) (or_introl eq_refl))
    as (rd & Hin & Hu & _).
  exists rd. simpl. auto.
Defined.

(** ** sync.py: [ensure_device] *)

Lemma NoDup_map_inj {X Y} (f : X -> Y) l a b :
  NoDup (map f l) -> In a l -> In b l -> f a = f b -> a = b.
Proof.
  induction l as [|x l IH]; intros Hnd Ha Hb E; [destruct Ha|].
  simpl in Hnd. inversion Hnd as [|y l' Hnot Hnd' Eq]; subst.
  destruct Ha as [<-|Ha], Hb as [<-|Hb]; auto.
  - exfalso. apply Hnot. rewrite E. apply in_map, Hb.
  - exfalso. apply Hnot. rewrite <- E. apply in_map, Ha.
Qed.

Lemma NoDup_snoc {X} (l : list X) x : ~ In x l -> NoDup l -> NoDup (l ++ [x]).
Proof.
  induction l as [|y l IH]; intros Hx Hnd; simpl; [constructor; [intros []|constructor]|].
  inversion Hnd as [|y' l' Hy Hnd' Eq]; subst. constructor.
  - intros Hin. apply in_app_or in Hin as [Hin|[E|[]]]; [contradiction|].
    subst. apply Hx. left. reflexivity.
  - apply IH; [intros Hin; apply Hx; right; exact Hin|exact Hnd'].
Qed.

Lemma coalesce_twice {T} (a b : option T) : coalesce a (coalesce a b) = coalesce a b.
Proof. destruct a; reflexivity. Qed.

Lemma coalesce_self {T} (a : option T) : coalesce a a = a.
Proof. destruct a; reflexivity. Qed.

Lemma device_has_key_update key loc ip d :
  device_has_key key (update_device loc ip d) = device_has_key key d.
Proof. reflexivity. Qed.

Lemma device_has_key_iff key d : device_has_key key d = true <-> dev_key d = key.
Proof. unfold device_has_key. apply String.eqb_eq. Qed.

Lemma find_map_update key loc ip devs :
  find (device_has_key key)
       (map (fun d => if device_has_key key d then update_device loc ip d else d) devs) =
  option_map (update_device loc ip) (find (device_has_key key) devs).
Proof.
  induction devs as [|d devs IH]; [reflexivity|]. simpl.
  destruct (device_has_key key d) eqn:E.
  - rewrite device_has_key_update, E. reflexivity.
  - rewrite E. exact IH.
Qed.

Lemma find_some_nodup key devs d0 :
  NoDup (map dev_key devs) -> In d0 devs -> dev_key d0 = key ->
  find (device_has_key key) devs = Some d0.
Proof.
  intros Hnd Hin Hk.
  destruct (find (device_has_key key) devs) as [d|] eqn:F.
  - apply find_some in F as [Hd Hp]. apply device_has_key_iff in Hp.
    f_equal. apply (NoDup_map_inj dev_key devs); congruence.
  - exfalso. apply find_none with (x := d0) in F; [|exact Hin].
    rewrite (proj2 (device_has_key_iff key d0) Hk) in F. discriminate F.
Qed.

(** The [devices] list after the upsert, and a second upsert's effect on it. *)
Lemma ensure_device_upsert_stable key loc ip devs auto :
  let devs' :=
    if existsb (device_has_key key) devs
    then map (fun d => if device_has_key key d then update_device loc ip d else d) devs
    else devs ++ [mkDevice auto key loc ip] in
  map (fun d => if device_has_key key d then update_device loc ip d else d) devs' = devs'.
Proof.
  cbv zeta. set (devs' := if existsb (device_has_key key) devs then _ else _).
  transitivity (map (fun x => x) devs'); [|apply map_id].
  apply map_ext_in. intros e He. subst devs'.
  destruct (device_has_key key e) eqn:Ek; [|reflexivity].
  destruct (existsb (device_has_key key) devs) eqn:Ex.
  - apply in_map_iff in He as (d & <- & Hd).
    destruct (device_has_key key d) eqn:Ed.
    + unfold update_device. cbn. rewrite !coalesce_twice. reflexivity.
    + rewrite Ed in Ek. discriminate Ek.
  - apply in_app_or in He as [He|[<-|[]]].
    + exfalso. assert (existsb (device_has_key key) devs = true)
        by (apply existsb_exists; exists e; auto). congruence.
    + unfold update_device. cbn. rewrite !coalesce_self. reflexivity.
Qed.

(** X: with [device_key] unique in [devices] (the key the [ON DUPLICATE KEY
    UPDATE] of [ensure_device] relies on), [ensure_device] never raises and
    keeps the keys unique.  A device already registered keeps its id, and its
    stored location and ip are only replaced by non-[None] values ([COALESCE]);
    other devices are kept.  Calling it again with the same arguments returns
    the same id and leaves [devices] unchanged. *)
Theorem ensure_device_spec key loc ip db :
  NoDup (map dev_key (devices db)) ->
  exists id db', ensure_device key loc ip db = Some (id, db') /\
  NoDup (map dev_key (devices db')) /\
  (exists d, In d (devices db') /\ dev_id d = id /\ dev_key d = key) /\
  (forall d0, In d0 (devices db) -> dev_key d0 = key ->
     id = dev_id d0 /\ In (update_device loc ip d0) (devices db')) /\
  (forall d, In d (devices db) -> dev_key d <> key -> In d (devices db')) /\
  sensors db' = sensors db /\ readings db' = readings db /\
  (exists db'', ensure_device key loc ip db' = Some (id, db'') /\ devices db'' = devices db').
Proof.
  intros Hnd. unfold ensure_device at 1.
  pose proof (ensure_device_upsert_stable key loc ip (devices db) (devices_auto db)) as Hst.
  cbv zeta in Hst |- *.
  set (devs' := if existsb (device_has_key key) (devices db) then _ else _) in Hst |- *.
  assert (Hk : map dev_key devs' = map dev_key (devices db) \/
               (map dev_key devs' = map dev_key (devices db) ++ [key] /\
                ~ In key (map dev_key (devices db)))).
  { subst devs'. destruct (existsb (device_has_key key) (devices db)) eqn:Ex.
    - left. rewrite map_map. apply map_ext. intros d.
      destruct (device_has_key key d); reflexivity.
    - right. rewrite map_app. split; [reflexivity|]. intros Hin.
      apply in_map_iff in Hin as (d & Hd & Hin).
      assert (existsb (device_has_key key) (devices db) = true)
        by (apply existsb_exists; exists d; split; [exact Hin|apply device_has_key_iff, Hd]).
      congruence. }
  assert (Hnd' : NoDup (map dev_key devs')).
  { destruct Hk as [E|[E Hn]]; rewrite E; [exact Hnd|apply NoDup_snoc; assumption]. }
  assert (Hfind : exists d, find (device_has_key key) devs' = Some d).
  { subst devs'. destruct (existsb (device_has_key key) (devices db)) eqn:Ex.
    - rewrite find_map_update. apply existsb_exists in Ex as (d0 & Hd0 & Hp).
      apply device_has_key_iff in Hp.
      rewrite (find_some_nodup key _ d0 Hnd Hd0 Hp). eexists; reflexivity.
    - destruct (find (device_has_key key) (devices db ++ _)) as [d|] eqn:F;
        [eexists; reflexivity|].
      apply find_none with (x := mkDevice (devices_auto db) key loc ip) in F;
        [|apply in_or_app; right; left; reflexivity].
      unfold device_has_key in F. cbn in F. rewrite String.eqb_refl in F. discriminate F. }
  destruct Hfind as (d & Hd). rewrite Hd.
  apply find_some in Hd as [HdIn Hdk]. apply device_has_key_iff in Hdk.
  exists (dev_id d). eexists. split; [reflexivity|]. cbn [devices sensors readings].
  split; [exact Hnd'|]. split; [exists d; auto|]. split; [|split; [|split; [|split]]].
  - intros d0 Hd0 Hk0.
    assert (Hex : existsb (device_has_key key) (devices db) = true)
      by (apply existsb_exists; exists d0; split; [exact Hd0|apply device_has_key_iff, Hk0]).
    assert (Hin : In (update_device loc ip d0) devs').
    { subst devs'. rewrite Hex. apply in_map_iff. exists d0. split; [|exact Hd0].
      rewrite (proj2 (device_has_key_iff key d0) Hk0). reflexivity. }
    split; [|exact Hin].
    assert (d = update_device loc ip d0) as ->.
    { apply (NoDup_map_inj dev_key devs'); [exact Hnd'|exact HdIn|exact Hin|].
      cbn. congruence. }
    reflexivity.
  - intros d1 Hd1 Hk1. subst devs'.
    destruct (existsb (device_has_key key) (devices db)).
    + apply in_map_iff. exists d1. split; [|exact Hd1].
      destruct (device_has_key key d1) eqn:E; [|reflexivity].
      apply device_has_key_iff in E. contradiction.
    + apply in_or_app. left. exact Hd1.
  - reflexivity.
  - reflexivity.
  - unfold ensure_device. cbn [devices].
    assert (Hex : existsb (device_has_key key) devs' = true)
      by (apply existsb_exists; exists d; split; [exact HdIn|apply device_has_key_iff, Hdk]).
    rewrite Hex, Hst, (find_some_nodup key devs' d Hnd' HdIn Hdk).
    eexists. split; reflexivity.
Qed.

Lemma ensure_device_spec_witness :
  exists id db', ensure_device "raspi-01" None None
    (mkMysql [mkDevice 3 "raspi-01" (Some "estufa"%string) None] 4 [] 1 [] true) = Some (id, db') /\
    id = 3 /\ In (mkDevice 3 "raspi-01" (Some "estufa"%string) None) (devices db').
Proof.
  destruct (ensure_device_spec "raspi-01" None None
              (mkMysql [mkDevice 3 "raspi-01" (Some "estufa"%string) None] 4 [] 1 [] true))
    as (id & db' & E & _ & _ & Hold & _);
    [repeat constructor; intros []|].
  destruct (Hold (mkDevice 3 "raspi-01" (Some "estufa"%string) None) (or_introl eq_refl) eq_refl)
    as [Hid Hin].
  exists id, db'. split; [exact E|]. split; [exact Hid|]. exact Hin.
Defined.

(** ** The reading data of queue rows *)

Lemma data_from_refl q : data_from q q.
Proof. intros r' H. exists r'. auto. Qed.

Lemma keeps_all_refl q : keeps_all q q.
Proof. intros r H. exists r. auto. Qed.

Lemma data_from_trans q1 q2 q3 : data_from q1 q2 -> data_from q2 q3 -> data_from q1 q3.
Proof.
  intros H12 H23 r3 H3. destruct (H23 r3 H3) as (r2 & H2 & E2).
  destruct (H12 r2 H2) as (r1 & H1 & E1). exists r1. split; [exact H1|congruence].
Qed.

Lemma keeps_all_trans q1 q2 q3 : keeps_all q1 q2 -> keeps_all q2 q3 -> keeps_all q1 q3.
Proof.
  intros H12 H23 r1 H1. destruct (H12 r1 H1) as (r2 & H2 & E2).
  destruct (H23 r2 H2) as (r3 & H3 & E3). exists r3. split; [exact H3|congruence].
Qed.

Lemma map_keeps_data (g : row -> row) q :
  (forall r, reading_data (g r) = reading_data r) ->
  data_from q (map g q) /\ keeps_all q (map g q).
Proof.
  intros Hg. split.
  - intros r' H. apply in_map_iff in H as (r & <- & Hr). exists r. auto.
  - intros r H. exists (g r). split; [apply in_map, H|apply Hg].
Qed.

Lemma executemany_keeps_data upd uuids q :
  (forall r, reading_data (upd r) = reading_data r) ->
  data_from q (executemany_update upd uuids q) /\ keeps_all q (executemany_update upd uuids q).
Proof.
  intros Hu. unfold executemany_update. revert q.
  induction uuids as [|u uuids IH]; intros q; simpl; [split; [apply data_from_refl|apply keeps_all_refl]|].
  destruct (IH (update_where_uuid upd u q)) as [H1 H2].
  destruct (map_keeps_data (fun r => if String.eqb (reading_uuid r) u then upd r else r) q)
    as [G1 G2]; [intros r; destruct (String.eqb (reading_uuid r) u); auto|].
  split; [exact (data_from_trans _ _ _ G1 H1)|exact (keeps_all_trans _ _ _ G2 H2)].
Qed.

Lemma mark_keeps_data upd uuids q q' :
  (forall r, reading_data (upd r) = reading_data r) ->
  q' = match uuids with [] => q | _ => executemany_update upd uuids q end ->
  data_from q q' /\ keeps_all q q'.
Proof.
  intros Hu ->. destruct uuids; [split; [apply data_from_refl|apply keeps_all_refl]|].
  apply executemany_keeps_data, Hu.
Qed.

Lemma maintenance_keeps_data cfg now q :
  data_from q (run_maintenance cfg now q) /\
  (forall r, In r q -> is_pending r = true ->
     exists r', In r' (run_maintenance cfg now q) /\ reading_data r' = reading_data r).
Proof.
  rewrite run_maintenance_eq. destruct (maintenance_raises cfg now q).
  { split; [apply data_from_refl|intros r H _; exists r; auto]. }
  set (q1 := out_queue (retention_cleanup _ _ _ q)).
  assert (Hq1 : (forall r, In r q1 -> In r q) /\ (forall r, In r q -> is_pending r = true -> In r q1)).
  { subst q1. rewrite retained_queue_eq.
    destruct (ENABLE_RETENTION cfg); [|split; auto].
    destruct (retention_cutoff now (RETENTION_DAYS cfg)); [|split; auto].
    split.
    - intros r H. apply filter_In in H. apply H.
    - intros r H Hp. apply filter_In. split; [exact H|].
      unfold is_pending, retention_victim in *.
      destruct (synced r), (dead r); try discriminate Hp. cbn [orb]. rewrite andb_false_r. reflexivity. }
  destruct Hq1 as [Sub Pend].
  destruct (map_keeps_data (sweep_row (MAX_SYNC_ATTEMPTS cfg)) q1)
    as [D K]; [intros r; unfold sweep_row; destruct (dead_candidate _ r); reflexivity|].
  split.
  - apply (data_from_trans _ q1); [|exact D]. intros r' H. exists r'. auto.
  - intros r H Hp. exact (K r (Pend r H Hp)).
Qed.

Lemma step_keeps_data cfg w w' :
  step cfg w w' ->
  (forall r, In r (queue_of w) -> is_pending r = true ->
     exists r', In r' (queue_of w') /\ reading_data r' = reading_data r) /\
  (data_from (queue_of w) (queue_of w') \/
   exists store dk st sp u ep ts t h okv err e,
     insert_queue store dk st sp u ep ts t h okv err (queue_of w) = (queue_of w', e)).
Proof.
  intros Hs.
  destruct Hs as [w store dk st sp u ep ts t h okv err q' e E|w now _ Hnr|w now o uuids Hi|w].
  - cbn [queue_of]. split; [|right; do 12 eexists; exact E].
    apply insert_queue_cases in E as [->|[_ ->]]; intros r Hr _; exists r;
      (split; [|reflexivity]); [exact Hr|apply in_or_app; left; exact Hr].
  - unfold forwarder_begin. rewrite Hnr. cbv iota beta.
    set (w1 := if maintenance_due (fwd w) (utc_date now) then _ else w).
    assert (H1 : (forall r, In r (queue_of w) -> is_pending r = true ->
                   exists r', In r' (queue_of w1) /\ reading_data r' = reading_data r) /\
                 data_from (queue_of w) (queue_of w1)).
    { subst w1. destruct (maintenance_due (fwd w) (utc_date now)); cbn [queue_of].
      - destruct (maintenance_keeps_data cfg now (queue_of w)) as [D P]. auto.
      - split; [intros r H _; exists r; auto|apply data_from_refl]. }
    destruct H1 as [P D].
    destruct (negb (mysql_ready cfg)); [split; [exact P|left; exact D]|].
    destruct (now <? next_try (fwd w1)); [split; [exact P|left; exact D]|].
    destruct (fetch_unsynced (queue_of w1) (MYSQL_BATCH_SIZE cfg)); split; auto.
  - unfold forwarder_finish. rewrite Hi.
    destruct o; cbn [queue_of].
    + destruct (mark_keeps_data (set_synced now) uuids (queue_of w)
                  (mark_synced now uuids (queue_of w)) (fun r => eq_refl) eq_refl) as [D K].
      split; [intros r H _; exact (K r H)|left; exact D].
    + destruct (mark_keeps_data (set_attempt_failed now) uuids (queue_of w)
                  (mark_attempt_failed now uuids (queue_of w)) (fun r => eq_refl) eq_refl) as [D K].
      split; [intros r H _; exact (K r H)|left; exact D].
    + split; [intros r H _; exists r; auto|left; apply data_from_refl].
    + destruct (mark_keeps_data (set_attempt_failed now) uuids (queue_of w)
                  (mark_attempt_failed now uuids (queue_of w)) (fun r => eq_refl) eq_refl) as [D K].
      split; [intros r H _; exact (K r H)|left; exact D].
  - cbn [queue_of]. split; [intros r H _; exists r; auto|left; apply data_from_refl].
Qed.

(** X: no step of the producer or of the forwarder deletes a pending row
    ([synced=0], [dead=0]) or changes the reading a row carries (uuid,
    device, sensor, pin, timestamps, values, ok, error message): in a
    reachable world, after one step every pending row's reading is still in
    the table, and a row with the same uuid carries the same reading. *)
Theorem step_keeps_readings cfg w w' :
  reachable cfg w -> step cfg w w' ->
  (forall r, In r (queue_of w) -> is_pending r = true ->
     exists r', In r' (queue_of w') /\ reading_data r' = reading_data r) /\
  (forall r r', In r (queue_of w) -> In r' (queue_of w') ->
     reading_uuid r' = reading_uuid r -> reading_data r' = reading_data r).
Proof.
  intros Hr Hs. destruct (reachable_inv cfg w Hr) as (Hnd & _).
  destruct (step_keeps_data cfg w w' Hs) as [P D]. split; [exact P|].
  intros r r' Hin Hin' Hu.
  destruct D as [D|(store & dk & st & sp & u & ep & ts & t & h & okv & err & e & E)].
  - destruct (D r' Hin') as (r0 & H0 & E0).
    assert (U0 : reading_uuid r0 = reading_uuid r) by (injection E0; intros; congruence).
    assert (r0 = r) as <- by exact (NoDup_map_inj reading_uuid _ _ _ Hnd H0 Hin U0).
    symmetry. exact E0.
  - apply insert_queue_cases in E as [E|[Hfresh E]].
    + rewrite E in Hin'.
      assert (r' = r) as -> by exact (NoDup_map_inj reading_uuid _ _ _ Hnd Hin' Hin Hu).
      reflexivity.
    + rewrite E in Hin'. apply in_app_or in Hin' as [Hin'|[<-|[]]].
      * assert (r' = r) as -> by exact (NoDup_map_inj reading_uuid _ _ _ Hnd Hin' Hin Hu).
        reflexivity.
      * exfalso. cbn in Hu. subst u. apply Hfresh, in_map, Hin.
Qed.

Lemma step_keeps_readings_witness :
  exists r', In r' (queue_of w_synced) /\ reading_data r' = reading_data (reading "a" 100).
Proof.
  destruct (step_keeps_readings cfg0 w_fetched w_synced w_fetched_reachable
              (StepFinish cfg0 w_fetched 1001 Delivered ["a"%string] w_fetched_inflight))
    as [_ H].
  exists (attempt_row (reading "a" 100) true 1 1001). split; [left; reflexivity|].
  apply H; [left; reflexivity|left; reflexivity|reflexivity].
Defined.
